(** * Portfolio page script (src/script.js): modal lightbox, navigation, language toggle

    A shallow embedding of the event handlers of [script.js].  Every handler
    becomes a function from the part of the page it reads and writes to the
    page it leaves behind.  A handler that can dereference [null] or
    [undefined] returns a [completion]: it either runs to its end or throws,
    and in both cases carries the page as the handler left it.

    Text is kept as [string], the UTF-8 bytes of the script's own literals. *)

From stdpp Require Import gmap strings list.
From Stdlib Require Import ZArith Ascii.

Local Open Scope Z_scope.
#[local] Set Warnings "-clear-no-such-hyp".

(** ** JavaScript values the handlers rely on *)

(** A handler either completes or stops at an uncaught [TypeError]. *)
Inductive completion (S : Type) : Type :=
  | Normal (s : S)
  | Throw (s : S).
Arguments Normal {S} s.
Arguments Throw {S} s.

Definition and_then {S} (c : completion S) (k : S → completion S) : completion S :=
  match c with
  | Normal s => k s
  | Throw s => Throw s
  end.

Notation "'run!' x := c 'in' k" := (and_then c (λ x, k))
  (at level 10, x name, c at level 100, k at level 200, only parsing).

Definition final {S} (c : completion S) : S :=
  match c with Normal s | Throw s => s end.

(** The result of [a % b] for integer operands: [NaN] when [b] is zero,
    otherwise the remainder that takes the sign of [a]. *)
Inductive jsnum : Type :=
  | Num (z : Z)
  | NaN.

Definition js_rem (a b : Z) : jsnum :=
  if decide (b = 0) then NaN else Num (Z.rem a b).

(** [el.textContent = v]: [undefined] clears the text. *)
Definition text_of (v : option string) : string := default "" v.

(** [`${v}`] inside a template literal: a missing value prints its name. *)
Definition interpolate (missing : string) (v : option string) : string :=
  default missing v.

Definition bytes (l : list nat) : string :=
  foldr (λ n s, String (Ascii.ascii_of_nat n) s) EmptyString l.

(** U+2014 EM DASH, as UTF-8. *)
Definition em_dash : string := bytes [226; 128; 148]%nat.

(** ** Modal lightbox (script.js, lines 226-290) *)

Module Modal.

(** A [.work-item] element as [openModal] reads it: the [src] of its first
    [img] descendant ([None] when [querySelector("img")] is [null]) and its
    [data-*] attributes. *)
Record work_item : Type := WorkItem {
  img : option string;
  dataset : gmap string string
}.

(** [currentIndex] and the modal's elements. *)
Record modal : Type := ModalState {
  currentIndex : Z;
  modalImg_src : string;
  modalTitle_text : string;
  modalMeta_text : string;
  active : bool
}.

(** The characters between [${item.dataset.medium}] and
    [${item.dataset.year}] in the template literal of line 240: a space,
    the eight bytes C3 A2 E2 82 AC E2 80 9D (U+00E2, U+20AC, U+201D) and a
    space. *)
Definition meta_separator : string :=
  " " +:+ bytes [195; 162; 226; 130; 172; 226; 128; 157]%nat +:+ " ".

Definition meta_text (item : work_item) : string :=
  interpolate "undefined" (dataset item !! "medium")
    +:+ meta_separator
    +:+ interpolate "undefined" (dataset item !! "year").

Section WithItems.

(** [items], fixed when the script is evaluated. *)
Variable items : list work_item.

Definition N : Z := Z.of_nat (length items).

(** [items[z]] for an integer [z]; [None] is [undefined]. *)
Definition item_at (z : Z) : option work_item :=
  if decide (0 ≤ z) then items !! Z.to_nat z else None.

(** What [openModal(index)] writes once [item] and its image are there. *)
Definition populate (index : Z) (item : work_item) (src : string) : modal :=
  {| currentIndex := index;
     modalImg_src := src;
     modalTitle_text := text_of (dataset item !! "title");
     modalMeta_text := meta_text item;
     active := true |}.

(** [openModal]: [items[NaN]] and [items[z]] out of range are
    [undefined], and [item.querySelector] then throws; so does [.src] on
    a missing image.  The right-hand side of line 238 is evaluated before
    anything is written, so a throw leaves the modal as it was. *)
Definition openModal (index : jsnum) (st : modal) : completion modal :=
  match index with
  | NaN => Throw st
  | Num z =>
      match item_at z with
      | None => Throw st
      | Some item =>
          match img item with
          | None => Throw st
          | Some src => Normal (populate z item src)
          end
      end
  end.

Definition closeModal (st : modal) : modal :=
  {| currentIndex := currentIndex st;
     modalImg_src := modalImg_src st;
     modalTitle_text := modalTitle_text st;
     modalMeta_text := modalMeta_text st;
     active := false |}.

Definition showPrev (st : modal) : completion modal :=
  openModal (js_rem (currentIndex st - 1 + N) N) st.

Definition showNext (st : modal) : completion modal :=
  openModal (js_rem (currentIndex st + 1) N) st.

(** A handler fired [k] times in a row, as long as none of the firings
    throws. *)
Definition times (k : nat) (h : modal → completion modal) (st : modal)
  : completion modal :=
  Nat.iter k (λ c, run! s := c in h s) (Normal st).

(** The [keydown] listener of lines 285-290. *)
Definition onKeydown (key : string) (st : modal) : completion modal :=
  if negb (active st) then Normal st
  else
    run! st1 := (if decide (key = "ArrowLeft") then showPrev st else Normal st) in
    run! st2 := (if decide (key = "ArrowRight") then showNext st1 else Normal st1) in
    Normal (if decide (key = "Escape") then closeModal st2 else st2).

(** What the user can do to the modal. *)
Inductive event : Type :=
  | ClickItem (i : nat)
  | ClickClose
  | ClickPrev
  | ClickNext
  | ClickOverlayLeft
  | ClickOverlayRight
  | Keydown (key : string).

(** The listener each event reaches.  [items.forEach] registers a click
    listener on the items that exist and on no other. *)
Definition handle (e : event) (st : modal) : completion modal :=
  match e with
  | ClickItem i =>
      match items !! i with
      | Some _ => openModal (Num (Z.of_nat i)) st
      | None => Normal st
      end
  | ClickClose => Normal (closeModal st)
  | ClickPrev | ClickOverlayLeft => showPrev st
  | ClickNext | ClickOverlayRight => showNext st
  | Keydown key => onKeydown key st
  end.

Definition step (e : event) (st : modal) : modal := final (handle e st).

Definition run (es : list event) (st : modal) : modal :=
  foldl (λ s e, step e s) st es.

(** The modal when the script has been evaluated: [currentIndex] is 0,
    the rest is whatever the markup holds. *)
Definition initial (src title meta : string) (shown : bool) : modal :=
  {| currentIndex := 0;
     modalImg_src := src;
     modalTitle_text := title;
     modalMeta_text := meta;
     active := shown |}.

(** The state [open(i)] of the specification: what [openModal(i)] leaves. *)
Definition open_at (i : Z) : option modal :=
  item ← item_at i;
  src ← img item;
  Some (populate i item src).

Definition in_bounds (st : modal) : Prop := 0 ≤ currentIndex st < N.

Definition all_have_image : Prop := Forall (λ it, is_Some (img it)) items.

End WithItems.

End Modal.

(** ** Navigation: smooth scroll and scroll spy (script.js, lines 57-131 and 296-302) *)

Module Nav.

(** An element as the navigation code reads it: [getAttribute('id')]
    ([None] is [null]), [offsetTop] and [offsetHeight]. *)
Record element : Type := Element {
  el_id : option string;
  offsetTop : Z;
  offsetHeight : Z
}.

(** What [document.querySelector(selector)] gives: an element, [null], or
    a [SyntaxError] for a string that is no selector. *)
Inductive lookup : Type :=
  | Found (e : element)
  | NotFound
  | Invalid.

(** A [.nav-link]: [getAttribute('href')] ([None] is [null]) and
    [style.fontWeight]. *)
Record nav_link : Type := NavLink {
  href : option string;
  fontWeight : string
}.

Inductive scroll_request : Type :=
  | ScrollTo (top : Z)
  | ScrollIntoView (target : element).

(** The page as the navigation handlers see and change it: [window.scrollY]
    (in whole pixels, like the offsets), the smooth scrolls asked for so far
    (latest first), the navigation links in document order, the current
    height of [.navbar], and the number of exceptions no listener caught. *)
Record page : Type := Page {
  scrollY : Z;
  requests : list scroll_request;
  links : list nav_link;
  navbar_offsetHeight : Z;
  uncaught : nat
}.

Definition set_weight (w : string) (l : nav_link) : nav_link :=
  {| href := href l; fontWeight := w |}.

Definition with_links (ls : list nav_link) (p : page) : page :=
  {| scrollY := scrollY p; requests := requests p; links := ls;
     navbar_offsetHeight := navbar_offsetHeight p; uncaught := uncaught p |}.

Definition request (r : scroll_request) (p : page) : page :=
  {| scrollY := scrollY p; requests := r :: requests p; links := links p;
     navbar_offsetHeight := navbar_offsetHeight p; uncaught := uncaught p |}.

(** An exception that leaves a listener is reported and the next listener
    still runs. *)
Definition report (c : completion page) : page :=
  match c with
  | Normal p => p
  | Throw p =>
      {| scrollY := scrollY p; requests := requests p; links := links p;
         navbar_offsetHeight := navbar_offsetHeight p;
         uncaught := S (uncaught p) |}
  end.

Definition dispatch (listeners : list (page → completion page)) (p : page) : page :=
  foldl (λ q h, report (h q)) p listeners.

(** [updateActiveLink(activeLink)], the active link being the [k]-th. *)
Definition updateActiveLink (k : nat) (p : page) : page :=
  with_links (alter (set_weight "700") k (set_weight "500" <$> links p)) p.

Section WithDocument.

(** The document's answer to [querySelector]. *)
Variable querySelector : string → lookup.

(** The listener [initSmoothScroll] puts on the [k]-th link.  The page has
    a [.navbar], as every initializer takes for granted. *)
Definition smoothScroll_listener (k : nat) (link : nav_link) (p : page)
  : completion page :=
  let targetId := interpolate "null" (href link) in
  match querySelector targetId with
  | Invalid => Throw p
  | NotFound => Normal p
  | Found targetSection =>
      let navHeight := navbar_offsetHeight p in
      let targetPosition := offsetTop targetSection - navHeight in
      Normal (updateActiveLink k (request (ScrollTo targetPosition) p))
  end.

(** The listener of lines 296-302: [scrollIntoView] is called on whatever
    [querySelector] returned. *)
Definition scrollIntoView_listener (link : nav_link) (p : page)
  : completion page :=
  match querySelector (interpolate "null" (href link)) with
  | Invalid => Throw p
  | NotFound => Throw p
  | Found target => Normal (request (ScrollIntoView target) p)
  end.

(** A click on the [k]-th navigation link.  The listener of line 297 is
    added while the script is evaluated, the one of [initSmoothScroll] at
    [DOMContentLoaded], so they run in that order.  Both call
    [preventDefault] first: the browser's own jump never happens. *)
Definition click_link (k : nat) (p : page) : page :=
  match links p !! k with
  | None => p
  | Some link =>
      dispatch [scrollIntoView_listener link; smoothScroll_listener k link] p
  end.

(** *** Scroll spy *)

(** The [section] elements in document order, and [navHeight], read once
    when [initScrollSpy] runs. *)
Variable sections : list element.
Variable navHeight : Z.

Definition in_band (y : Z) (section : element) : bool :=
  let sectionTop := offsetTop section - navHeight - 100 in
  let sectionHeight := offsetHeight section in
  bool_decide (sectionTop ≤ y) && bool_decide (y < sectionTop + sectionHeight).

(** [currentSection] after the loop over [sections]: it starts as the
    empty string and takes the [id] of every section in whose band [y]
    lies. *)
Definition currentSection (y : Z) : option string :=
  foldl (λ cur section, if in_band y section then el_id section else cur)
        (Some "") sections.

Definition spy_weight (cur : option string) (link : nav_link) : nav_link :=
  if decide (href link = Some ("#" +:+ interpolate "null" cur))
  then set_weight "700" (set_weight "500" link)
  else set_weight "500" link.

(** The scroll listener of [initScrollSpy]. *)
Definition onScroll (p : page) : page :=
  with_links (spy_weight (currentSection (scrollY p)) <$> links p) p.

End WithDocument.

(** The answer of a document, given by its elements in document order, to
    the selectors the sample links carry: ["#name"] finds the first element
    whose [id] is [name], and a lone ["#"] is no selector.  Other kinds of
    selector are not needed below and are refused here. *)
Definition by_id (doc : list element) (selector : string) : lookup :=
  match selector with
  | String "#"%char name =>
      match name with
      | EmptyString => Invalid
      | _ =>
          match list_find (λ e, el_id e = Some name) doc with
          | Some (_, e) => Found e
          | None => NotFound
          end
      end
  | _ => Invalid
  end.

End Nav.

(** ** Language toggle (script.js, lines 306-317) *)

Module Lang.

Inductive lang : Type := en | fr.

Definition key (l : lang) : string :=
  match l with en => "en" | fr => "fr" end.

(** A child node of an element: a text node, or another element, named by
    the key under which the page holds it. *)
Inductive child : Type :=
  | TextNode (data : string)
  | ElementRef (id : nat).

(** An element: its [data-*] attributes and its child nodes. *)
Record element : Type := Element {
  dataset : gmap string string;
  childNodes : list child
}.

(** [currentLang], the text of [#lang-toggle], every element the page holds,
    in the document or removed from it, and the top-level nodes of the
    document.  The toggle control is kept apart from [elements]: it is not
    matched by [[data-en]] and lies in no element that is. *)
Record state : Type := State {
  currentLang : lang;
  langToggle_text : string;
  elements : gmap nat element;
  body : list child
}.

(** Matched by the selector [[data-en]]. *)
Definition tagged (el : element) : bool :=
  bool_decide (is_Some (dataset el !! "en")).

(** The matches below one node, in document order, [below] giving those
    below a list of child nodes. *)
Definition matched_at (below : list child → list nat)
    (els : gmap nat element) (c : child) : list nat :=
  match c with
  | TextNode _ => []
  | ElementRef id =>
      match els !! id with
      | None => []
      | Some el => (if tagged el then [id] else []) ++ below (childNodes el)
      end
  end.

(** The elements matched by [[data-en]] among the descendants of [nodes], to
    a depth of [depth] elements. *)
Fixpoint matched (depth : nat) (els : gmap nat element) (nodes : list child)
  : list nat :=
  match depth with
  | O => []
  | S depth' => nodes ≫= matched_at (matched depth' els) els
  end.

(** [document.querySelectorAll("[data-en]")]: no branch of a document is
    longer than the number of its elements. *)
Definition querySelectorAll (st : state) : list nat :=
  matched (S (size (elements st))) (elements st) (body st).

(** The children [el.textContent = v] leaves: one text node, or none for
    the empty string. *)
Definition text_children (v : string) : list child :=
  match v with
  | EmptyString => []
  | _ => [TextNode v]
  end.

(** The body of the [forEach] of lines 314-316: [el.textContent =
    el.dataset[currentLang]] replaces the children of [el]. *)
Definition retext (l : lang) (el : element) : element :=
  {| dataset := dataset el;
     childNodes := text_children (text_of (dataset el !! key l)) |}.

Definition other (l : lang) : lang :=
  match l with en => fr | fr => en end.

(** The click listener of [#lang-toggle].  The list of matches is taken
    once, before the loop; the loop then writes to each match in turn, in
    the document or no longer. *)
Definition toggle_click (st : state) : state :=
  let currentLang' := match currentLang st with en => fr | fr => en end in
  {| currentLang := currentLang';
     langToggle_text := match currentLang' with en => "FR" | fr => "EN" end;
     elements := foldl (λ els id, alter (retext currentLang') id els)
                       (elements st) (querySelectorAll st);
     body := body st |}.

(** The text below one node, [below] giving the text below a list of child
    nodes. *)
Definition text_at (below : list child → string)
    (els : gmap nat element) (c : child) : string :=
  match c with
  | TextNode data => data
  | ElementRef id =>
      match els !! id with
      | None => ""
      | Some el => below (childNodes el)
      end
  end.

(** The text of the descendants of [nodes], in document order. *)
Fixpoint descendant_text (depth : nat) (els : gmap nat element) (nodes : list child)
  : string :=
  match depth with
  | O => ""
  | S depth' =>
      foldr (λ c rest, text_at (descendant_text depth' els) els c +:+ rest) "" nodes
  end.

(** [el.textContent], read. *)
Definition textContent (st : state) (id : nat) : string :=
  match elements st !! id with
  | None => ""
  | Some el => descendant_text (S (size (elements st))) (elements st) (childNodes el)
  end.

(** The state when the script has been evaluated. *)
Definition initial (label : string) (els : gmap nat element) (top : list child) : state :=
  {| currentLang := en; langToggle_text := label; elements := els; body := top |}.

End Lang.

(** ** Sample pages *)

Definition art (src title medium year : string) : Modal.work_item :=
  {| Modal.img := Some src;
     Modal.dataset := {[ "title" := title; "medium" := medium; "year" := year ]} |}.

Definition gallery : list Modal.work_item :=
  [ art "img/dusk.jpg" "Dusk" "Oil" "2021";
    art "img/tide.jpg" "Tide" "Ink" "2022";
    art "img/moss.jpg" "Moss" "Gouache" "2022";
    art "img/kiln.jpg" "Kiln" "Ceramic" "2023";
    art "img/reed.jpg" "Reed" "Charcoal" "2024" ].

Definition blank_modal : Modal.modal := Modal.initial "" "" "" false.

(** The modal after [openModal(0)] on [gallery]. *)
Definition dusk_open : Modal.modal :=
  Modal.populate 0 (art "img/dusk.jpg" "Dusk" "Oil" "2021") "img/dusk.jpg".

(** Three sections, the first two with overlapping bands under a 70px
    navbar, and three links, the last of which points at no element. *)
Definition sample_sections : list Nav.element :=
  [ Nav.Element (Some "hero") 0 800;
    Nav.Element (Some "work") 700 900;
    Nav.Element (Some "contact") 1600 400 ].

Definition sample_page : Nav.page :=
  {| Nav.scrollY := 600;
     Nav.requests := [];
     Nav.links := [ Nav.NavLink (Some "#hero") "";
                    Nav.NavLink (Some "#work") "";
                    Nav.NavLink (Some "#press") "" ];
     Nav.navbar_offsetHeight := 70;
     Nav.uncaught := 0 |}.

(** A tagged element whose markup text is neither of its two attributes,
    one whose text is its [data-en] value, and an untagged one, side by
    side in the document. *)
Definition greeting : Lang.element :=
  {| Lang.dataset := {[ "en" := "Hello"; "fr" := "Bonjour" ]};
     Lang.childNodes := [Lang.TextNode "Hi there"] |}.

Definition about_heading : Lang.element :=
  {| Lang.dataset := {[ "en" := "About"; "fr" := "À propos" ]};
     Lang.childNodes := [Lang.TextNode "About"] |}.

Definition footer_note : Lang.element :=
  {| Lang.dataset := ∅; Lang.childNodes := [Lang.TextNode "2024"] |}.

Definition sample_lang : Lang.state :=
  Lang.initial "FR"
    {[ 0%nat := greeting; 1%nat := about_heading; 2%nat := footer_note ]}
    [Lang.ElementRef 0; Lang.ElementRef 1; Lang.ElementRef 2].

(** Nested markup: an untagged paragraph (element 0) that holds a tagged
    span (element 1), and a tagged block (element 2) that holds a tagged
    span (element 3). *)
Definition nested_lang : Lang.state :=
  Lang.initial "FR"
    {[ 0%nat := {| Lang.dataset := ∅;
                   Lang.childNodes := [Lang.TextNode "Year: "; Lang.ElementRef 1] |};
       1%nat := {| Lang.dataset := {[ "en" := "Hello"; "fr" := "Bonjour" ]};
                   Lang.childNodes := [Lang.TextNode "Hello"] |};
       2%nat := {| Lang.dataset := {[ "en" := "Outer"; "fr" := "Dehors" ]};
                   Lang.childNodes := [Lang.TextNode "Outer "; Lang.ElementRef 3] |};
       3%nat := {| Lang.dataset := {[ "en" := "Inner"; "fr" := "Dedans" ]};
                   Lang.childNodes := [Lang.TextNode "Inner"] |} ]}
    [Lang.ElementRef 0; Lang.ElementRef 2].

(** ** Scroll animations (script.js, lines 14-47) *)

Module Reveal.

(** An [IntersectionObserverEntry]: the element it is about, named by its
    position among the nodes of the document, and whether that element now
    intersects the viewport. *)
Record entry : Type := Entry {
  target : nat;
  isIntersecting : bool
}.

(** The inline [opacity] of the elements that have one, the elements whose
    [classList] holds [fade-in], and the elements the observer watches. *)
Record state : Type := State {
  opacity : gmap nat string;
  fade_in : gset nat;
  observed : gset nat
}.

(** The body of [entries.forEach] in [observerCallback]. *)
Definition on_entry (st : state) (e : entry) : state :=
  if isIntersecting e
  then {| opacity := opacity st;
          fade_in := {[ target e ]} ∪ fade_in st;
          observed := observed st ∖ {[ target e ]} |}
  else st.

Definition observerCallback (entries : list entry) (st : state) : state :=
  foldl on_entry st entries.

(** The body of [elementsToAnimate.forEach]. *)
Definition watch (st : state) (element : nat) : state :=
  {| opacity := <[ element := "0" ]> (opacity st);
     fade_in := fade_in st;
     observed := {[ element ]} ∪ observed st |}.

(** [initScrollAnimations], given the elements that match
    [section:not(.hero), .work-item]. *)
Definition initScrollAnimations (elementsToAnimate : list nat) (st : state) : state :=
  foldl watch st elementsToAnimate.

(** The callbacks the browser makes afterwards, one batch of entries each. *)
Definition callbacks (batches : list (list entry)) (st : state) : state :=
  foldl (λ s entries, observerCallback entries s) st batches.

(** An entry of [entries] reports [x] as intersecting. *)
Definition reported (entries : list entry) (x : nat) : Prop :=
  ∃ e, e ∈ entries ∧ target e = x ∧ isIntersecting e = true.

End Reveal.

(** ** Navbar shadow (script.js, lines 141-151) *)

Module Header.

(** The scroll listener of [initNavbarScrollEffect]: the [boxShadow] it
    leaves on [.navbar], whatever the one before. *)
Definition onScroll (scrollY : Z) (boxShadow : string) : string :=
  if decide (50 < scrollY)
  then "0 2px 10px rgba(0, 0, 0, 0.05)"
  else "none".

Definition scrolls (positions : list Z) (boxShadow : string) : string :=
  foldl (λ shadow y, onScroll y shadow) boxShadow positions.

End Header.

(** ** Contact links (script.js, lines 161-173) *)

Module Contact.

Inductive event : Type :=
  | Mouseenter (k : nat)
  | Mouseleave (k : nat).

(** The listeners of [initContactLinks] on the inline [transform] of the
    [.contact-link] elements, in document order.  A link that does not
    exist has no listener. *)
Definition handle (e : event) (transforms : list string) : list string :=
  match e with
  | Mouseenter k => <[ k := "translateY(-2px)" ]> transforms
  | Mouseleave k => <[ k := "translateY(0)" ]> transforms
  end.

Definition run (es : list event) (transforms : list string) : list string :=
  foldl (λ ts e, handle e ts) transforms es.

Definition on_link (e : event) : nat :=
  match e with Mouseenter k | Mouseleave k => k end.

End Contact.

(** ** Work item animations (script.js, lines 183-190) *)

Module Stagger.

(** The inline [opacity] and [animation] of a [.work-item]. *)
Record style : Type := Style {
  opacity : string;
  animation : string
}.

(** [initWorkItemAnimations]: the callback of [forEach] receives the item
    and its index. *)
Definition initWorkItemAnimations (workItems : list style) : list style :=
  imap (λ (index : nat) (item : style),
          {| opacity := "0"; animation := "fadeInUp 0.8s ease-out forwards" |})
       workItems.

End Stagger.

(** ** The modal and the item under its index *)

(** An active modal is in the state [open(currentIndex)]. *)
Definition shows_current (items : list Modal.work_item) (st : Modal.modal) : Prop :=
  Modal.active st = true → Modal.open_at items (Modal.currentIndex st) = Some st.

(** ** More sample pages *)

(** A gallery whose middle item holds no image. *)
Definition broken_gallery : list Modal.work_item :=
  [ art "img/dusk.jpg" "Dusk" "Oil" "2021";
    {| Modal.img := None; Modal.dataset := {[ "title" := "Lost" ]} |};
    art "img/moss.jpg" "Moss" "Gouache" "2022" ].

(** A tagged element without a [data-fr] attribute. *)
Definition untranslated : Lang.element :=
  {| Lang.dataset := {[ "en" := "Portfolio" ]};
     Lang.childNodes := [Lang.TextNode "Portfolio"] |}.

(** A page before [initScrollAnimations]: nothing styled, nothing revealed,
    nothing watched. *)
Definition unwatched : Reveal.state :=
  {| Reveal.opacity := ∅; Reveal.fade_in := ∅; Reveal.observed := ∅ |}.

(** The sample page scrolled below its last band, with a first link whose
    [href] is a lone ["#"] and a second one left bold by an earlier click. *)
Definition bottom_page : Nav.page :=
  {| Nav.scrollY := 5000;
     Nav.requests := [];
     Nav.links := [ Nav.NavLink (Some "#") ""; Nav.NavLink (Some "#work") "700" ];
     Nav.navbar_offsetHeight := 70;
     Nav.uncaught := 0 |}.

(** * Facts about the modal *)

Section ModalFacts.

Import Modal.

Variable items : list work_item.

Lemma item_at_in_range (z : Z) :
  0 ≤ z < N items → is_Some (item_at items z).
Proof.
  intros [Hlo Hhi]. unfold item_at, N in *.
  rewrite decide_True by done.
  apply lookup_lt_is_Some. lia.
Qed.

Lemma item_at_Some_range (z : Z) (it : work_item) :
  item_at items z = Some it → 0 ≤ z < N items.
Proof.
  unfold item_at, N. case_decide; [|done].
  intros Hit%lookup_lt_Some. lia.
Qed.

Lemma open_at_is_Some (z : Z) :
  all_have_image items → 0 ≤ z < N items → is_Some (open_at items z).
Proof.
  intros Himg Hz. destruct (item_at_in_range z Hz) as [it Hit].
  assert (is_Some (img it)) as [src Hsrc].
  { unfold item_at in Hit. case_decide; [|done].
    eapply (proj1 (Forall_lookup _ _) Himg); eauto. }
  exists (populate z it src). unfold open_at. rewrite Hit. simpl. by rewrite Hsrc.
Qed.

Lemma open_at_range (z : Z) (st : modal) :
  open_at items z = Some st → 0 ≤ z < N items.
Proof.
  unfold open_at. destruct (item_at items z) as [it|] eqn:Hit; [|done].
  intros _. by eapply item_at_Some_range.
Qed.

Lemma open_at_fields (z : Z) (st : modal) :
  open_at items z = Some st → currentIndex st = z ∧ active st = true.
Proof.
  unfold open_at. destruct (item_at items z) as [it|]; [|done]. simpl.
  destruct (img it) as [src|]; [|done]. simpl. by intros [= <-].
Qed.

(** [openModal(z)] reaches [open(z)] from any state. *)
Lemma openModal_open_at (z : Z) (st st' : modal) :
  open_at items z = Some st' → openModal items (Num z) st = Normal st'.
Proof.
  unfold open_at, openModal. destruct (item_at items z) as [it|]; [|done]. simpl.
  destruct (img it) as [src|]; [|done]. simpl. by intros [= <-].
Qed.

(** [openModal] either opens the item it was asked for or changes nothing. *)
Lemma openModal_cases (index : jsnum) (st : modal) :
  (∃ z st', index = Num z ∧ open_at items z = Some st'
            ∧ openModal items index st = Normal st')
  ∨ openModal items index st = Throw st.
Proof.
  destruct index as [z|]; [|by right]. unfold openModal, open_at.
  destruct (item_at items z) as [it|] eqn:Hit; [|by right].
  destruct (img it) as [src|] eqn:Hsrc; [|by right].
  left. exists z, (populate z it src). rewrite Hit. simpl. by rewrite Hsrc.
Qed.

Lemma js_rem_prev (i : Z) :
  0 ≤ i < N items → js_rem (i - 1 + N items) (N items) = Num ((i - 1 + N items) `mod` N items).
Proof.
  intros Hi. unfold js_rem. rewrite decide_False by lia.
  f_equal. apply Z.rem_mod_nonneg; lia.
Qed.

Lemma js_rem_next (i : Z) :
  0 ≤ i < N items → js_rem (i + 1) (N items) = Num ((i + 1) `mod` N items).
Proof.
  intros Hi. unfold js_rem. rewrite decide_False by lia.
  f_equal. apply Z.rem_mod_nonneg; lia.
Qed.

Lemma showPrev_open_at (st st' : modal) :
  in_bounds items st →
  open_at items ((currentIndex st - 1 + N items) `mod` N items) = Some st' →
  showPrev items st = Normal st'.
Proof.
  intros Hb Hopen. unfold showPrev. rewrite js_rem_prev by done.
  by apply openModal_open_at.
Qed.

Lemma showNext_open_at (st st' : modal) :
  in_bounds items st →
  open_at items ((currentIndex st + 1) `mod` N items) = Some st' →
  showNext items st = Normal st'.
Proof.
  intros Hb Hopen. unfold showNext. rewrite js_rem_next by done.
  by apply openModal_open_at.
Qed.

(** [open(z)] field by field: the index in range, and image source, title
    and metadata text read from [items[z]], the metadata with the characters
    line 240 puts between medium and year. *)
Lemma open_at_explicit (z : Z) (st : modal) :
  open_at items z = Some st →
  0 ≤ z < N items
  ∧ ∃ it src, items !! Z.to_nat z = Some it ∧ img it = Some src
      ∧ st = {| currentIndex := z;
              modalImg_src := src;
              modalTitle_text := default "" (dataset it !! "title");
              modalMeta_text :=
                default "undefined" (dataset it !! "medium")
                  +:+ " â€” "
                  +:+ default "undefined" (dataset it !! "year");
              active := true |}.
Proof.
  intros Hopen. split; [by eapply open_at_range|].
  unfold open_at in Hopen.
  destruct (item_at items z) as [it|] eqn:Hit; [|done]. simpl in Hopen.
  destruct (img it) as [src|] eqn:Hsrc; [|done]. simpl in Hopen.
  injection Hopen as <-. exists it, src.
  unfold item_at in Hit. case_decide; [|done]. done.
Qed.

(** After [k] presses of next, [open(i)] has become [open((i + k) mod N)]. *)
Lemma next_times (k : nat) (i : Z) (st : modal) :
  all_have_image items → open_at items i = Some st →
  ∃ st', times k (showNext items) st = Normal st'
         ∧ open_at items ((i + Z.of_nat k) `mod` N items) = Some st'.
Proof.
  intros Himg Hopen. pose proof (open_at_range _ _ Hopen) as Hi.
  induction k as [|k (stk & Hrun & Hstk)].
  - exists st. split; [done|].
    rewrite Z.add_0_r. by rewrite Z.mod_small.
  - destruct (open_at_fields _ _ Hstk) as [Hidx _].
    assert (0 ≤ (i + Z.of_nat k) `mod` N items < N items) as Hk
      by (apply Z.mod_pos_bound; lia).
    assert (((i + Z.of_nat k) `mod` N items + 1) `mod` N items
            = (i + Z.of_nat (S k)) `mod` N items) as Hmod.
    { rewrite Zplus_mod_idemp_l. f_equal. lia. }
    destruct (open_at_is_Some ((i + Z.of_nat (S k)) `mod` N items) Himg)
      as [st' Hst']; [apply Z.mod_pos_bound; lia|].
    exists st'. split; [|done].
    unfold times in *. rewrite Nat.iter_succ, Hrun. simpl.
    apply showNext_open_at.
    + unfold in_bounds. by rewrite Hidx.
    + by rewrite Hidx, Hmod.
Qed.

(** The states around [open(i)], as [open_at] names them. *)
Lemma prev_next_cycle_states (i : Z) :
  all_have_image items → 0 ≤ i < N items →
  ∃ st p n,
    open_at items i = Some st
    ∧ (∀ st0, openModal items (Num i) st0 = Normal st)
    ∧ open_at items ((i - 1 + N items) `mod` N items) = Some p
    ∧ open_at items ((i + 1) `mod` N items) = Some n
    ∧ showPrev items st = Normal p
    ∧ showNext items st = Normal n
    ∧ (run! q := showPrev items st in showNext items q) = Normal st
    ∧ times (length items) (showNext items) st = Normal st.
Proof.
  intros Himg Hi.
  destruct (open_at_is_Some i Himg Hi) as [st Hopen].
  destruct (open_at_is_Some ((i - 1 + N items) `mod` N items) Himg)
    as [p Hp]; [apply Z.mod_pos_bound; lia|].
  destruct (open_at_is_Some ((i + 1) `mod` N items) Himg)
    as [n Hn]; [apply Z.mod_pos_bound; lia|].
  exists st, p, n.
  destruct (open_at_fields _ _ Hopen) as [Hidx _].
  destruct (open_at_fields _ _ Hp) as [Hpidx _].
  assert (in_bounds items st) as Hb by (unfold in_bounds; by rewrite Hidx).
  assert (showPrev items st = Normal p) as Hprev.
  { apply showPrev_open_at; [done|]. by rewrite Hidx. }
  assert (showNext items p = Normal st) as Hback.
  { apply showNext_open_at.
    - unfold in_bounds. rewrite Hpidx. apply Z.mod_pos_bound; lia.
    - rewrite Hpidx, Zplus_mod_idemp_l.
      replace (i - 1 + N items + 1) with (i + 1 * N items) by lia.
      rewrite Z_mod_plus_full. by rewrite Z.mod_small. }
  split; [done|]. split; [intros st0; by apply openModal_open_at|].
  split; [done|]. split; [done|]. split; [done|].
  split; [apply showNext_open_at; [done|]; by rewrite Hidx|].
  split; [by rewrite Hprev|].
  destruct (next_times (length items) i st Himg Hopen) as (st' & Hrun & Hst').
  fold (N items) in Hst'.
  replace (i + N items) with (i + 1 * N items) in Hst' by lia.
  rewrite Z_mod_plus_full in Hst'. rewrite Z.mod_small in Hst' by done.
  rewrite Hrun. f_equal. congruence.
Qed.

(** C2.  With every work item holding an image and [0 ≤ i < N], let [st]
    be the state [open(i)], the one [openModal(i)] leaves.  From [st], prev
    leads to [open((i - 1 + N) mod N)] and next to [open((i + 1) mod N)];
    prev followed by next leads back to [st], and so does next fired [N]
    times in a row.  None of these calls throws.  Each of the three states
    is spelled out: its index, the image source, title and metadata text of
    the item under that index, and the active marking. *)
Theorem prev_next_cycle (i : Z) :
  all_have_image items → 0 ≤ i < N items →
  ∃ st p n,
    open_at items i = Some st
    ∧ (∀ st0, openModal items (Num i) st0 = Normal st)
    ∧ open_at items ((i - 1 + N items) `mod` N items) = Some p
    ∧ open_at items ((i + 1) `mod` N items) = Some n
    ∧ showPrev items st = Normal p
    ∧ showNext items st = Normal n
    ∧ (run! q := showPrev items st in showNext items q) = Normal st
    ∧ times (length items) (showNext items) st = Normal st
    ∧ (∃ it src, items !! Z.to_nat (i) = Some it ∧ img it = Some src
       ∧ st = {| currentIndex := i;
              modalImg_src := src;
              modalTitle_text := default "" (dataset it !! "title");
              modalMeta_text :=
                default "undefined" (dataset it !! "medium")
                  +:+ " â€” "
                  +:+ default "undefined" (dataset it !! "year");
              active := true |})
    ∧ (∃ it src, items !! Z.to_nat ((i - 1 + N items) `mod` N items) = Some it ∧ img it = Some src
       ∧ p = {| currentIndex := (i - 1 + N items) `mod` N items;
              modalImg_src := src;
              modalTitle_text := default "" (dataset it !! "title");
              modalMeta_text :=
                default "undefined" (dataset it !! "medium")
                  +:+ " â€” "
                  +:+ default "undefined" (dataset it !! "year");
              active := true |})
    ∧ (∃ it src, items !! Z.to_nat ((i + 1) `mod` N items) = Some it ∧ img it = Some src
       ∧ n = {| currentIndex := (i + 1) `mod` N items;
              modalImg_src := src;
              modalTitle_text := default "" (dataset it !! "title");
              modalMeta_text :=
                default "undefined" (dataset it !! "medium")
                  +:+ " â€” "
                  +:+ default "undefined" (dataset it !! "year");
              active := true |}).
Proof.
  intros Himg Hi.
  destruct (prev_next_cycle_states i Himg Hi)
    as (st & p & n & Hst & Hopen & Hp & Hn & Hprev & Hnext & Hback & Hcycle).
  exists st, p, n.
  do 8 (split; [done|]).
  split; [by apply open_at_explicit|].
  split; by apply open_at_explicit.
Qed.

(** Without work items [% items.length] is [NaN] and both handlers throw. *)
Lemma show_without_items (st : modal) :
  items = [] → showPrev items st = Throw st ∧ showNext items st = Throw st.
Proof. by intros ->. Qed.

(** *** The index stays in bounds *)

Lemma openModal_in_bounds (index : jsnum) (st : modal) :
  in_bounds items st → in_bounds items (final (openModal items index st)).
Proof.
  intros Hb.
  destruct (openModal_cases index st) as [(z & st' & _ & Hopen & ->) | ->];
    [|done].
  simpl. unfold in_bounds.
  destruct (open_at_fields _ _ Hopen) as [-> _].
  by eapply open_at_range.
Qed.

(** On an open modal the three key tests exclude one another. *)
Lemma onKeydown_active (key : string) (st : modal) :
  active st = true →
  onKeydown items key st =
    if decide (key = "ArrowLeft") then showPrev items st
    else if decide (key = "ArrowRight") then showNext items st
    else Normal (if decide (key = "Escape") then closeModal st else st).
Proof.
  intros Hopen. unfold onKeydown. rewrite Hopen. simpl.
  destruct (decide (key = "ArrowLeft")) as [->|_].
  - by destruct (showPrev items st).
  - simpl. destruct (decide (key = "ArrowRight")) as [->|_]; [|done].
    by destruct (showNext items st).
Qed.

Lemma onKeydown_in_bounds (key : string) (st : modal) :
  in_bounds items st → in_bounds items (final (onKeydown items key st)).
Proof.
  intros Hb. destruct (active st) eqn:Hactive.
  - rewrite onKeydown_active by done.
    repeat case_decide; try done; by apply openModal_in_bounds.
  - unfold onKeydown. by rewrite Hactive.
Qed.

Lemma step_in_bounds (e : event) (st : modal) :
  in_bounds items st → in_bounds items (step items e st).
Proof.
  intros Hb. unfold step.
  destruct e as [i| | | | | |key]; unfold handle, showPrev, showNext;
    try (by apply openModal_in_bounds).
  - destruct (items !! i); [by apply openModal_in_bounds|done].
  - done.
  - by apply onKeydown_in_bounds.
Qed.

Lemma run_in_bounds (es : list event) (st : modal) :
  in_bounds items st → in_bounds items (run items es st).
Proof.
  revert st. induction es as [|e es IH]; intros st Hb; [done|].
  simpl. apply IH. by apply step_in_bounds.
Qed.

(** C6.  With at least one work item, [currentIndex] lies in [0, N) when
    the script has been evaluated and after every sequence of item clicks,
    prev, next and close actions and key presses. *)
Theorem index_in_bounds (es : list event) (src title meta : string) (shown : bool) :
  1 ≤ N items →
  in_bounds items (run items es (initial src title meta shown)).
Proof.
  intros HN. apply run_in_bounds. unfold in_bounds. simpl. lia.
Qed.

(** *** Closing *)

(** C7.  The close control, and the escape key while the modal is open,
    remove the active marking and nothing else: index, image, title and
    metadata stay as they were. *)
Theorem close_only_clears_active (st : modal) :
  handle items ClickClose st = Normal (closeModal st)
  ∧ handle items (Keydown "Escape") st
    = Normal (if active st then closeModal st else st)
  ∧ active (closeModal st) = false
  ∧ currentIndex (closeModal st) = currentIndex st
  ∧ modalImg_src (closeModal st) = modalImg_src st
  ∧ modalTitle_text (closeModal st) = modalTitle_text st
  ∧ modalMeta_text (closeModal st) = modalMeta_text st.
Proof.
  split; [done|]. split; [|done].
  simpl. unfold onKeydown. by destruct (active st).
Qed.

(** *** Keys while the modal is closed *)

(** C8.  While the modal is not active, the keydown listener returns at
    once: whatever the key, the modal is left exactly as it was. *)
Theorem keydown_closed_noop (key : string) (st : modal) :
  active st = false → handle items (Keydown key) st = Normal st.
Proof.
  intros Hclosed. simpl. unfold onKeydown. by rewrite Hclosed.
Qed.

(** *** Buttons and overlay halves while the modal is closed *)

(** What the controls do to a closed modal, as [open_at] names it. *)
Lemma controls_reopen_states (st : modal) :
  all_have_image items → in_bounds items st → active st = false →
  ∃ p n,
    openModal items (Num ((currentIndex st - 1 + N items) `mod` N items)) st = Normal p
    ∧ openModal items (Num ((currentIndex st + 1) `mod` N items)) st = Normal n
    ∧ open_at items ((currentIndex st - 1 + N items) `mod` N items) = Some p
    ∧ open_at items ((currentIndex st + 1) `mod` N items) = Some n
    ∧ handle items ClickPrev st = Normal p
    ∧ handle items ClickOverlayLeft st = Normal p
    ∧ handle items ClickNext st = Normal n
    ∧ handle items ClickOverlayRight st = Normal n
    ∧ active p = true ∧ active n = true
    ∧ handle items (Keydown "ArrowLeft") st = Normal st
    ∧ handle items (Keydown "ArrowRight") st = Normal st.
Proof.
  intros Himg Hb Hclosed.
  destruct (open_at_is_Some ((currentIndex st - 1 + N items) `mod` N items) Himg)
    as [p Hp]; [apply Z.mod_pos_bound; unfold in_bounds in Hb; lia|].
  destruct (open_at_is_Some ((currentIndex st + 1) `mod` N items) Himg)
    as [n Hn]; [apply Z.mod_pos_bound; unfold in_bounds in Hb; lia|].
  exists p, n.
  pose proof (showPrev_open_at st p Hb Hp) as Hprev.
  pose proof (showNext_open_at st n Hb Hn) as Hnext.
  destruct (open_at_fields _ _ Hp) as [_ Hpa].
  destruct (open_at_fields _ _ Hn) as [_ Hna].
  split; [by apply openModal_open_at|].
  split; [by apply openModal_open_at|].
  repeat split; try done.
  - simpl. unfold onKeydown. by rewrite Hclosed.
  - simpl. unfold onKeydown. by rewrite Hclosed.
Qed.

(** C10.  The prev and next buttons and the two overlay halves do not look
    at the active marking.  On a closed modal they call [openModal] on
    [(currentIndex - 1 + N) mod N], respectively [(currentIndex + 1) mod N],
    which fills the modal from that item and marks it active; the arrow
    keys, in the same state, do nothing.  The two resulting states are
    spelled out: index, image source, title and metadata text of the item
    under that index, and the active marking. *)
Theorem controls_reopen_closed_modal (st : modal) :
  all_have_image items → in_bounds items st → active st = false →
  ∃ p n,
    openModal items (Num ((currentIndex st - 1 + N items) `mod` N items)) st = Normal p
    ∧ openModal items (Num ((currentIndex st + 1) `mod` N items)) st = Normal n
    ∧ open_at items ((currentIndex st - 1 + N items) `mod` N items) = Some p
    ∧ open_at items ((currentIndex st + 1) `mod` N items) = Some n
    ∧ handle items ClickPrev st = Normal p
    ∧ handle items ClickOverlayLeft st = Normal p
    ∧ handle items ClickNext st = Normal n
    ∧ handle items ClickOverlayRight st = Normal n
    ∧ active p = true ∧ active n = true
    ∧ handle items (Keydown "ArrowLeft") st = Normal st
    ∧ handle items (Keydown "ArrowRight") st = Normal st
    ∧ (∃ it src, items !! Z.to_nat ((currentIndex st - 1 + N items) `mod` N items) = Some it ∧ img it = Some src
       ∧ p = {| currentIndex := (currentIndex st - 1 + N items) `mod` N items;
              modalImg_src := src;
              modalTitle_text := default "" (dataset it !! "title");
              modalMeta_text :=
                default "undefined" (dataset it !! "medium")
                  +:+ " â€” "
                  +:+ default "undefined" (dataset it !! "year");
              active := true |})
    ∧ (∃ it src, items !! Z.to_nat ((currentIndex st + 1) `mod` N items) = Some it ∧ img it = Some src
       ∧ n = {| currentIndex := (currentIndex st + 1) `mod` N items;
              modalImg_src := src;
              modalTitle_text := default "" (dataset it !! "title");
              modalMeta_text :=
                default "undefined" (dataset it !! "medium")
                  +:+ " â€” "
                  +:+ default "undefined" (dataset it !! "year");
              active := true |}).
Proof.
  intros Himg Hb Hclosed.
  destruct (controls_reopen_states st Himg Hb Hclosed)
    as (p & n & H1 & H2 & Hp & Hn & H5 & H6 & H7 & H8 & H9 & H10 & H11 & H12).
  exists p, n.
  do 12 (split; [done|]).
  split; by apply open_at_explicit.
Qed.

End ModalFacts.

(** *** The modal on the sample gallery *)

Lemma append_cancel_l (s a b : string) : s +:+ a = s +:+ b → a = b.
Proof.
  induction s as [|c s IH]; simpl; [done|].
  intros [= H]. by apply IH.
Qed.

(** Whatever the item, the metadata text is not the one with an em dash. *)
Lemma meta_text_not_em_dash (item : Modal.work_item) :
  Modal.meta_text item ≠
    interpolate "undefined" (Modal.dataset item !! "medium")
      +:+ " " +:+ em_dash +:+ " "
      +:+ interpolate "undefined" (Modal.dataset item !! "year").
Proof.
  unfold Modal.meta_text. intros H%append_cancel_l. discriminate H.
Qed.

(** C1.  [openModal(0)] on the sample gallery sets the index to 0, the image
    source and the title to those of item 0 and marks the modal active, but
    the metadata text it writes is ["Oil"], a space, the three characters
    U+00E2 U+20AC U+201D, a space and ["2021"]: not ["Oil — 2021"] with an
    em dash. *)
Theorem openModal_meta_separator :
  Modal.openModal gallery (Num 0) blank_modal =
    Normal {| Modal.currentIndex := 0;
              Modal.modalImg_src := "img/dusk.jpg";
              Modal.modalTitle_text := "Dusk";
              Modal.modalMeta_text :=
                "Oil " +:+ bytes [195; 162; 226; 130; 172; 226; 128; 157]%nat +:+ " 2021";
              Modal.active := true |}
  ∧ Modal.modalMeta_text (final (Modal.openModal gallery (Num 0) blank_modal))
    ≠ "Oil " +:+ em_dash +:+ " 2021".
Proof. split; [reflexivity|]. vm_compute. discriminate. Qed.

(** Every item of the sample gallery holds an image. *)
Lemma gallery_all_have_image : Modal.all_have_image gallery.
Proof. repeat (constructor; [by eexists|]). constructor. Defined.

(** Five items, the modal open on item 0, left arrow pressed: the index
    wraps to 4, image and title are those of item 4, the modal stays
    active. *)
Example left_arrow_wraps :
  Modal.handle gallery (Modal.Keydown "ArrowLeft") dusk_open =
    Normal (Modal.populate 4 (art "img/reed.jpg" "Reed" "Charcoal" "2024") "img/reed.jpg").
Proof. reflexivity. Qed.

(** C2 on the sample gallery, from [open(2)]. *)
Lemma prev_next_cycle_witness :
  ∃ st p n,
    Modal.open_at gallery 2 = Some st
    ∧ (∀ st0, Modal.openModal gallery (Num 2) st0 = Normal st)
    ∧ Modal.open_at gallery ((2 - 1 + Modal.N gallery) `mod` Modal.N gallery) = Some p
    ∧ Modal.open_at gallery ((2 + 1) `mod` Modal.N gallery) = Some n
    ∧ Modal.showPrev gallery st = Normal p
    ∧ Modal.showNext gallery st = Normal n
    ∧ (run! q := Modal.showPrev gallery st in Modal.showNext gallery q) = Normal st
    ∧ Modal.times (length gallery) (Modal.showNext gallery) st = Normal st
    ∧ (∃ it src, gallery !! Z.to_nat (2) = Some it ∧ Modal.img it = Some src
       ∧ st = {| Modal.currentIndex := 2;
              Modal.modalImg_src := src;
              Modal.modalTitle_text := default "" (Modal.dataset it !! "title");
              Modal.modalMeta_text :=
                default "undefined" (Modal.dataset it !! "medium")
                  +:+ " â€” "
                  +:+ default "undefined" (Modal.dataset it !! "year");
              Modal.active := true |})
    ∧ (∃ it src, gallery !! Z.to_nat ((2 - 1 + Modal.N gallery) `mod` Modal.N gallery) = Some it ∧ Modal.img it = Some src
       ∧ p = {| Modal.currentIndex := (2 - 1 + Modal.N gallery) `mod` Modal.N gallery;
              Modal.modalImg_src := src;
              Modal.modalTitle_text := default "" (Modal.dataset it !! "title");
              Modal.modalMeta_text :=
                default "undefined" (Modal.dataset it !! "medium")
                  +:+ " â€” "
                  +:+ default "undefined" (Modal.dataset it !! "year");
              Modal.active := true |})
    ∧ (∃ it src, gallery !! Z.to_nat ((2 + 1) `mod` Modal.N gallery) = Some it ∧ Modal.img it = Some src
       ∧ n = {| Modal.currentIndex := (2 + 1) `mod` Modal.N gallery;
              Modal.modalImg_src := src;
              Modal.modalTitle_text := default "" (Modal.dataset it !! "title");
              Modal.modalMeta_text :=
                default "undefined" (Modal.dataset it !! "medium")
                  +:+ " â€” "
                  +:+ default "undefined" (Modal.dataset it !! "year");
              Modal.active := true |}).
Proof.
  apply (prev_next_cycle gallery 2);
    [exact gallery_all_have_image | by vm_compute].
Defined.

(** C6 on the sample gallery, along one sequence of events. *)
Lemma index_in_bounds_witness :
  1 ≤ Modal.N gallery
  ∧ Modal.in_bounds gallery
      (Modal.run gallery
         [Modal.ClickItem 3; Modal.ClickNext; Modal.Keydown "ArrowRight";
          Modal.ClickClose; Modal.ClickOverlayLeft; Modal.ClickItem 4;
          Modal.ClickNext]
         (Modal.initial "" "" "" false)).
Proof.
  split; [by vm_compute|].
  apply index_in_bounds. by vm_compute.
Defined.

(** C8 on the sample gallery: left arrow on the modal closed after
    [open(0)]. *)
Lemma keydown_closed_noop_witness :
  Modal.active (Modal.closeModal dusk_open) = false
  ∧ Modal.handle gallery (Modal.Keydown "ArrowLeft") (Modal.closeModal dusk_open)
    = Normal (Modal.closeModal dusk_open).
Proof.
  split; [reflexivity|].
  apply keydown_closed_noop. reflexivity.
Defined.

(** C10 on the sample gallery: the modal closed after [open(0)]. *)
Lemma controls_reopen_closed_modal_witness :
  ∃ p n,
    Modal.openModal gallery
      (Num ((Modal.currentIndex (Modal.closeModal dusk_open) - 1 + Modal.N gallery)
              `mod` Modal.N gallery)) (Modal.closeModal dusk_open) = Normal p
    ∧ Modal.openModal gallery
        (Num ((Modal.currentIndex (Modal.closeModal dusk_open) + 1) `mod` Modal.N gallery))
        (Modal.closeModal dusk_open) = Normal n
    ∧ Modal.open_at gallery
      ((Modal.currentIndex (Modal.closeModal dusk_open) - 1 + Modal.N gallery)
         `mod` Modal.N gallery) = Some p
    ∧ Modal.open_at gallery
        ((Modal.currentIndex (Modal.closeModal dusk_open) + 1) `mod` Modal.N gallery)
      = Some n
    ∧ Modal.handle gallery Modal.ClickPrev (Modal.closeModal dusk_open) = Normal p
    ∧ Modal.handle gallery Modal.ClickOverlayLeft (Modal.closeModal dusk_open) = Normal p
    ∧ Modal.handle gallery Modal.ClickNext (Modal.closeModal dusk_open) = Normal n
    ∧ Modal.handle gallery Modal.ClickOverlayRight (Modal.closeModal dusk_open) = Normal n
    ∧ Modal.active p = true ∧ Modal.active n = true
    ∧ Modal.handle gallery (Modal.Keydown "ArrowLeft") (Modal.closeModal dusk_open)
      = Normal (Modal.closeModal dusk_open)
    ∧ Modal.handle gallery (Modal.Keydown "ArrowRight") (Modal.closeModal dusk_open)
      = Normal (Modal.closeModal dusk_open)
    ∧ (∃ it src, gallery !! Z.to_nat ((Modal.currentIndex (Modal.closeModal dusk_open) - 1 + Modal.N gallery)
           `mod` Modal.N gallery) = Some it ∧ Modal.img it = Some src
       ∧ p = {| Modal.currentIndex := (Modal.currentIndex (Modal.closeModal dusk_open) - 1 + Modal.N gallery)
           `mod` Modal.N gallery;
              Modal.modalImg_src := src;
              Modal.modalTitle_text := default "" (Modal.dataset it !! "title");
              Modal.modalMeta_text :=
                default "undefined" (Modal.dataset it !! "medium")
                  +:+ " â€” "
                  +:+ default "undefined" (Modal.dataset it !! "year");
              Modal.active := true |})
    ∧ (∃ it src, gallery !! Z.to_nat ((Modal.currentIndex (Modal.closeModal dusk_open) + 1) `mod` Modal.N gallery) = Some it ∧ Modal.img it = Some src
       ∧ n = {| Modal.currentIndex := (Modal.currentIndex (Modal.closeModal dusk_open) + 1) `mod` Modal.N gallery;
              Modal.modalImg_src := src;
              Modal.modalTitle_text := default "" (Modal.dataset it !! "title");
              Modal.modalMeta_text :=
                default "undefined" (Modal.dataset it !! "medium")
                  +:+ " â€” "
                  +:+ default "undefined" (Modal.dataset it !! "year");
              Modal.active := true |}).
Proof.
  apply (controls_reopen_closed_modal gallery (Modal.closeModal dusk_open));
    [exact gallery_all_have_image | by vm_compute | reflexivity].
Defined.

(** * Facts about navigation *)

Section NavFacts.

Import Nav.

Variable querySelector : string → lookup.

(** The listener of [initSmoothScroll] tests its target: without one it
    ends normally and has changed nothing. *)
Lemma smoothScroll_listener_missing (k : nat) (link : nav_link) (p : page) :
  querySelector (interpolate "null" (href link)) = NotFound →
  smoothScroll_listener querySelector k link p = Normal p.
Proof. intros Hq. unfold smoothScroll_listener. by rewrite Hq. Qed.

(** The listener of line 297 does not: it throws on the same click. *)
Lemma scrollIntoView_listener_missing (link : nav_link) (p : page) :
  querySelector (interpolate "null" (href link)) = NotFound →
  scrollIntoView_listener querySelector link p = Throw p.
Proof. intros Hq. unfold scrollIntoView_listener. by rewrite Hq. Qed.

(** A click on a link without target: no scroll is asked for and no link
    is restyled, and one exception goes uncaught. *)
Lemma click_link_missing (k : nat) (link : nav_link) (p : page) :
  links p !! k = Some link →
  querySelector (interpolate "null" (href link)) = NotFound →
  click_link querySelector k p =
    {| scrollY := scrollY p; requests := requests p; links := links p;
       navbar_offsetHeight := navbar_offsetHeight p;
       uncaught := S (uncaught p) |}.
Proof.
  intros Hk Hq. unfold click_link, dispatch. rewrite Hk. simpl.
  rewrite scrollIntoView_listener_missing by done. simpl.
  by rewrite smoothScroll_listener_missing.
Qed.

End NavFacts.

(** *** Scroll spy *)

Section ScrollSpy.

Import Nav.

Variable navHeight : Z.

(** [y] lies in the band of [section]. *)
Lemma in_band_spec (y : Z) (section : element) :
  in_band navHeight y section = true ↔
  offsetTop section - navHeight - 100 ≤ y
    < offsetTop section - navHeight - 100 + offsetHeight section.
Proof.
  unfold in_band. simpl.
  rewrite andb_true_iff, !bool_decide_eq_true. done.
Qed.

Lemma currentSection_app (y : Z) (pre post : list element) :
  currentSection (pre ++ post) navHeight y =
    foldl (λ cur section, if in_band navHeight y section then el_id section else cur)
          (currentSection pre navHeight y) post.
Proof. unfold currentSection. by rewrite foldl_app. Qed.

Lemma spy_loop_no_match (y : Z) (cur : option string) (post : list element) :
  Forall (λ t, in_band navHeight y t = false) post →
  foldl (λ cur section, if in_band navHeight y section then el_id section else cur)
        cur post = cur.
Proof.
  induction 1 as [|t post Ht _ IH]; [done|].
  simpl. by rewrite Ht.
Qed.

(** The loop keeps the [id] of the last section whose band holds [y]. *)
Lemma currentSection_last (y : Z) (pre post : list element) (s : element) :
  in_band navHeight y s = true →
  Forall (λ t, in_band navHeight y t = false) post →
  currentSection (pre ++ s :: post) navHeight y = el_id s.
Proof.
  intros Hs Hpost. rewrite currentSection_app. simpl.
  rewrite Hs. by apply spy_loop_no_match.
Qed.

(** No band holds [y]: [currentSection] is still the empty string. *)
Lemma currentSection_none (y : Z) (sections : list element) :
  Forall (λ t, in_band navHeight y t = false) sections →
  currentSection sections navHeight y = Some "".
Proof. apply spy_loop_no_match. Qed.

Lemma spy_weight_spec (cur : option string) (link : nav_link) :
  spy_weight cur link =
    {| href := href link;
       fontWeight := if decide (href link = Some ("#" +:+ interpolate "null" cur))
                     then "700" else "500" |}.
Proof. unfold spy_weight. by case_decide. Qed.

(** C9.  On a scroll event, let [s] be the last section in document order
    whose band holds [scrollY]: the band starts at
    [offsetTop - navHeight - 100], included, and ends [offsetHeight] further
    down, excluded.  The listener gives weight 700 to the links whose [href] is
    ["#"] followed by the [id] of [s], weight 500 to every other link, and
    changes nothing else; sections before [s] do not matter, in band or
    not. *)
Theorem scroll_spy_bolds_last_match
    (pre post : list element) (s : element) (p : page) :
  offsetTop s - navHeight - 100 ≤ scrollY p
    < offsetTop s - navHeight - 100 + offsetHeight s →
  Forall (λ t, ¬ (offsetTop t - navHeight - 100 ≤ scrollY p
                  < offsetTop t - navHeight - 100 + offsetHeight t)) post →
  onScroll (pre ++ s :: post) navHeight p =
    {| scrollY := scrollY p;
       requests := requests p;
       links :=
         (λ link,
            {| href := href link;
               fontWeight :=
                 if decide (href link = Some ("#" +:+ interpolate "null" (el_id s)))
                 then "700" else "500" |}) <$> links p;
       navbar_offsetHeight := navbar_offsetHeight p;
       uncaught := uncaught p |}.
Proof.
  intros Hs Hpost. unfold onScroll, with_links. f_equal.
  rewrite (currentSection_last _ pre post s).
  - apply list_fmap_ext. intros _ link _. apply spy_weight_spec.
  - by apply in_band_spec.
  - eapply Forall_impl; [exact Hpost|]. intros t Ht. simpl in Ht.
    destruct (in_band navHeight (scrollY p) t) eqn:Hband; [|done].
    by apply in_band_spec in Hband.
Qed.

End ScrollSpy.

(** C3.  On the sample page the third link points at ["#press"], which no
    element carries.  A click on it asks for no scroll and restyles no
    link, yet it is not silent: the listener of line 297 calls
    [scrollIntoView] on [null] and one [TypeError] goes uncaught, where the
    listener of [initSmoothScroll] alone would have ended normally. *)
Theorem click_missing_target_throws :
  Nav.click_link (Nav.by_id sample_sections) 2 sample_page =
    {| Nav.scrollY := Nav.scrollY sample_page;
       Nav.requests := Nav.requests sample_page;
       Nav.links := Nav.links sample_page;
       Nav.navbar_offsetHeight := Nav.navbar_offsetHeight sample_page;
       Nav.uncaught := 1 |}
  ∧ Nav.click_link (Nav.by_id sample_sections) 2 sample_page ≠ sample_page
  ∧ Nav.smoothScroll_listener (Nav.by_id sample_sections) 2
      (Nav.NavLink (Some "#press") "") sample_page = Normal sample_page
  ∧ Nav.scrollIntoView_listener (Nav.by_id sample_sections)
      (Nav.NavLink (Some "#press") "") sample_page = Throw sample_page.
Proof. repeat split; try reflexivity. vm_compute. discriminate. Qed.

(** C9 on the sample page: at [scrollY = 600] the bands of [hero] and
    [work] both hold the position, and [work], the later one, wins. *)
Lemma scroll_spy_bolds_last_match_witness :
  Nav.onScroll sample_sections 70 sample_page =
    {| Nav.scrollY := 600;
       Nav.requests := [];
       Nav.links :=
         (λ link,
            {| Nav.href := Nav.href link;
               Nav.fontWeight :=
                 if decide (Nav.href link = Some ("#" +:+ interpolate "null" (Some "work")))
                 then "700" else "500" |}) <$> Nav.links sample_page;
       Nav.navbar_offsetHeight := 70;
       Nav.uncaught := 0 |}.
Proof.
  apply (scroll_spy_bolds_last_match 70
           [Nav.Element (Some "hero") 0 800]
           [Nav.Element (Some "contact") 1600 400]
           (Nav.Element (Some "work") 700 900) sample_page).
  - simpl. lia.
  - repeat constructor. simpl. lia.
Defined.

(** * Facts about the language toggle *)

Section LangFacts.

Import Lang.

Lemma append_empty_r (s : string) : s +:+ "" = s.
Proof.
  induction s as [|c s IH]; [done|].
  change (String c (s +:+ "") = String c s). by f_equal.
Qed.

Lemma retext_retext (l l' : lang) (el : element) :
  retext l (retext l' el) = retext l el.
Proof. done. Qed.

Lemma other_involutive (l : lang) : other (other l) = l.
Proof. by destruct l. Qed.

Lemma toggle_click_lang (st : state) :
  currentLang (toggle_click st) = other (currentLang st).
Proof. unfold toggle_click. by destruct (currentLang st). Qed.

(** The loop writes to the listed elements and to no other. *)
Lemma retext_all_lookup (l : lang) (ids : list nat) (els : gmap nat element) (id : nat) :
  foldl (λ els id, alter (retext l) id els) els ids !! id =
    if decide (id ∈ ids) then retext l <$> els !! id else els !! id.
Proof.
  revert els. induction ids as [|a ids IH]; intros els.
  - simpl. destruct (decide (id ∈ [])) as [Hin|_]; [by apply elem_of_nil in Hin|done].
  - simpl. rewrite IH.
    destruct (decide (id ∈ ids)) as [Hin|Hnin];
      destruct (decide (id ∈ a :: ids)) as [Hin'|Hnin'].
    + destruct (decide (id = a)) as [->|Hne].
      * rewrite lookup_alter_eq. by destruct (els !! a).
      * by rewrite lookup_alter_ne.
    + exfalso. apply Hnin'. apply elem_of_cons. by right.
    + apply elem_of_cons in Hin' as [->|Hin']; [|done].
      by rewrite lookup_alter_eq.
    + rewrite lookup_alter_ne; [done|]. intros ->. apply Hnin'. apply elem_of_cons. by left.
Qed.

Lemma toggle_click_lookup (st : state) (id : nat) :
  elements (toggle_click st) !! id =
    if decide (id ∈ querySelectorAll st)
    then retext (other (currentLang st)) <$> elements st !! id
    else elements st !! id.
Proof.
  unfold toggle_click. simpl. rewrite retext_all_lookup.
  by destruct (currentLang st).
Qed.

Lemma toggle_click_dom (st : state) :
  dom (elements (toggle_click st)) = dom (elements st).
Proof.
  apply set_eq. intros id. rewrite !elem_of_dom, toggle_click_lookup.
  case_decide; [|done]. by rewrite fmap_is_Some.
Qed.

Lemma toggle_click_size (st : state) :
  size (elements (toggle_click st)) = size (elements st).
Proof. by rewrite <- !size_dom, toggle_click_dom. Qed.

(** What the selector returns is an element of the page that carries
    [data-en]. *)
Lemma matched_tagged (depth : nat) (els : gmap nat element) (nodes : list child) (id : nat) :
  id ∈ matched depth els nodes → ∃ el, els !! id = Some el ∧ tagged el = true.
Proof.
  revert nodes. induction depth as [|depth IH]; intros nodes; simpl.
  - by intros ?%elem_of_nil.
  - intros (c & Hid & _)%list_elem_of_bind.
    destruct c as [data|j]; simpl in Hid; [by apply elem_of_nil in Hid|].
    destruct (els !! j) as [el|] eqn:Hj; [|by apply elem_of_nil in Hid].
    apply elem_of_app in Hid as [Hid|Hid]; [|by eapply IH].
    destruct (tagged el) eqn:Ht; [|by apply elem_of_nil in Hid].
    apply list_elem_of_singleton in Hid as ->. eauto.
Qed.

Lemma text_children_matched (depth : nat) (els : gmap nat element) (v : string) :
  matched depth els (text_children v) = [].
Proof. destruct depth; [done|]. by destruct v. Qed.

Lemma text_children_text (depth : nat) (els : gmap nat element) (v : string) :
  descendant_text (S depth) els (text_children v) = v.
Proof.
  destruct v as [|a v]; [done|].
  change (descendant_text (S depth) els (text_children (String a v)))
    with (String a v +:+ "").
  apply append_empty_r.
Qed.

Lemma textContent_retext (st : state) (id : nat) (l : lang) (el : element) :
  elements st !! id = Some (retext l el) →
  textContent st id = default "" (dataset el !! key l).
Proof.
  intros Hel. unfold textContent. rewrite Hel. apply text_children_text.
Qed.

(** The text of an element the click has matched. *)
Lemma toggle_click_text (st : state) (id : nat) :
  id ∈ querySelectorAll st →
  ∃ el, elements st !! id = Some el ∧ tagged el = true
        ∧ elements (toggle_click st) !! id = Some (retext (other (currentLang st)) el)
        ∧ textContent (toggle_click st) id
          = default "" (dataset el !! key (other (currentLang st))).
Proof.
  intros Hid. destruct (matched_tagged _ _ _ _ Hid) as (el & Hel & Ht).
  exists el.
  assert (elements (toggle_click st) !! id = Some (retext (other (currentLang st)) el)) as H'.
  { rewrite toggle_click_lookup, decide_True by done. by rewrite Hel. }
  repeat split; try done. by apply textContent_retext.
Qed.


(** C4, as amended.  After two clicks in a row the flag is back, and every
    element that the second click still finds in the document shows its
    attribute for the language that was active before the first click
    (nothing, when it has no such attribute).  Its text is therefore the one
    it had before the first click exactly when that text was this attribute
    already. *)
Theorem toggle_twice_text (st : state) (id : nat) (el : element) :
  elements st !! id = Some el →
  id ∈ querySelectorAll (toggle_click st) →
  currentLang (toggle_click (toggle_click st)) = currentLang st
  ∧ ∃ el', elements (toggle_click (toggle_click st)) !! id = Some el'
           ∧ dataset el' = dataset el
           ∧ textContent (toggle_click (toggle_click st)) id
             = default "" (dataset el !! key (currentLang st))
           ∧ (textContent (toggle_click (toggle_click st)) id = textContent st id
              ↔ textContent st id = default "" (dataset el !! key (currentLang st))).
Proof.
  intros Hel Hid. split; [by rewrite !toggle_click_lang, other_involutive|].
  destruct (toggle_click_text _ id Hid) as (el1 & Hel1 & _ & Hel2 & Htext).
  rewrite toggle_click_lang, other_involutive in Hel2, Htext.
  assert (dataset el1 = dataset el) as Hd.
  { rewrite toggle_click_lookup, Hel in Hel1.
    case_decide; simpl in Hel1; by injection Hel1 as <-. }
  exists (retext (currentLang st) el1).
  rewrite Htext, Hd. repeat split; try done; by intros ->.
Qed.

(** Rewriting the text of elements adds no match. *)
Lemma matched_shrink (depth : nat) (els els' : gmap nat element) (nodes : list child) (id : nat) :
  (∀ j, els' !! j = els !! j
        ∨ ∃ el l, els !! j = Some el ∧ els' !! j = Some (retext l el)) →
  id ∈ matched depth els' nodes → id ∈ matched depth els nodes.
Proof.
  intros Hre. revert nodes. induction depth as [|depth IH]; intros nodes; [done|].
  simpl. rewrite !list_elem_of_bind. intros (c & Hid & Hc). exists c. split; [|done].
  destruct c as [data|j]; [done|]. simpl in *.
  destruct (Hre j) as [Heq | (el & l & Hel & Hel')].
  - rewrite Heq in Hid. destruct (els !! j) as [el|]; [|done].
    apply elem_of_app in Hid as [Hid|Hid]; apply elem_of_app; [by left|right; by apply IH].
  - rewrite Hel' in Hid. rewrite Hel. simpl in Hid.
    rewrite text_children_matched, app_nil_r in Hid.
    apply elem_of_app. by left.
Qed.

(** Rewriting the text of elements whose children were text already
    changes no match. *)
Lemma matched_same (depth : nat) (els els' : gmap nat element) (nodes : list child) :
  (∀ j, els' !! j = els !! j
        ∨ ∃ el l l', els !! j = Some (retext l el) ∧ els' !! j = Some (retext l' el)) →
  matched depth els' nodes = matched depth els nodes.
Proof.
  intros Hre. revert nodes. induction depth as [|depth IH]; intros nodes; [done|].
  simpl. apply list_bind_ext; [|done]. intros c.
  destruct c as [data|j]; [done|]. simpl.
  destruct (Hre j) as [-> | (el & l & l' & -> & ->)].
  - destruct (els !! j); [|done]. by rewrite IH.
  - simpl. by rewrite !text_children_matched.
Qed.

Lemma toggle_click_retexted (st : state) (j : nat) :
  elements (toggle_click st) !! j = elements st !! j
  ∨ ∃ el l, elements st !! j = Some el
            ∧ elements (toggle_click st) !! j = Some (retext l el).
Proof.
  rewrite toggle_click_lookup. case_decide; [|by left].
  destruct (elements st !! j) as [el|]; [|by left]. right. by exists el, (other (currentLang st)).
Qed.

(** A click matches no element that the click before did not match. *)
Lemma querySelectorAll_shrinks (st : state) (id : nat) :
  id ∈ querySelectorAll (toggle_click st) → id ∈ querySelectorAll st.
Proof.
  unfold querySelectorAll. rewrite toggle_click_size.
  apply matched_shrink. apply toggle_click_retexted.
Qed.

(** From the second click on, every click finds the same elements. *)
Lemma querySelectorAll_settles (st : state) :
  querySelectorAll (toggle_click (toggle_click st)) = querySelectorAll (toggle_click st).
Proof.
  unfold querySelectorAll. rewrite !toggle_click_size.
  change (body (toggle_click (toggle_click st))) with (body (toggle_click st)).
  apply matched_same. intros j.
  rewrite (toggle_click_lookup (toggle_click st)).
  case_decide as Hj; [|by left].
  apply querySelectorAll_shrinks in Hj.
  rewrite toggle_click_lookup, decide_True by done.
  destruct (elements st !! j) as [el|]; [|by left].
  right. by exists el, (other (currentLang st)), (other (currentLang (toggle_click st))).
Qed.

(** Once the toggle has been clicked, two more clicks change nothing. *)
Lemma toggle_thrice (st : state) :
  toggle_click (toggle_click (toggle_click st)) = toggle_click st.
Proof.
  assert (elements (toggle_click (toggle_click (toggle_click st)))
          = elements (toggle_click st)) as Hels.
  { apply map_eq. intros id.
    rewrite (toggle_click_lookup (toggle_click (toggle_click st))).
    rewrite querySelectorAll_settles.
    rewrite (toggle_click_lookup (toggle_click st)).
    rewrite !toggle_click_lang, other_involutive.
    case_decide as Hid; [|done].
    apply querySelectorAll_shrinks in Hid.
    rewrite toggle_click_lookup, decide_True by done.
    by destruct (elements st !! id). }
  destruct (toggle_click (toggle_click (toggle_click st))) as [l3 t3 e3 b3] eqn:H3.
  destruct (toggle_click st) as [l1 t1 e1 b1] eqn:H1.
  simpl in Hels. subst e3.
  assert (l3 = l1 ∧ t3 = t1 ∧ b3 = b1) as (-> & -> & ->); [|done].
  rewrite <- H1 in H3.
  unfold toggle_click in H1, H3. simpl in H3.
  destruct (currentLang st); simpl in *;
    injection H1 as <- <- _ <-; injection H3 as <- <- _ <-; done.
Qed.

End LangFacts.

(** One click on the sample page: flag [fr], label ["EN"], the [data-fr]
    texts on the two tagged elements, the untagged one untouched. *)
Example toggle_once_sample :
  Lang.toggle_click sample_lang =
    {| Lang.currentLang := Lang.fr;
       Lang.langToggle_text := "EN";
       Lang.elements :=
         {[ 0%nat := {| Lang.dataset := Lang.dataset greeting;
                        Lang.childNodes := [Lang.TextNode "Bonjour"] |};
            1%nat := {| Lang.dataset := Lang.dataset about_heading;
                        Lang.childNodes := [Lang.TextNode "À propos"] |};
            2%nat := footer_note ]};
       Lang.body := Lang.body sample_lang |}.
Proof. by vm_compute. Qed.

(** Nested markup, before a click, after one and after two.  The untagged
    paragraph reads what its span reads.  The span inside the tagged block
    is matched by the first click only: the block's own text replaces it in
    the document, and it keeps its French text from then on. *)
Example nested_texts_after_clicks :
  Lang.querySelectorAll nested_lang = [1; 2; 3]%nat
  ∧ Lang.textContent nested_lang <$> [0; 1; 2; 3]%nat
    = ["Year: Hello"; "Hello"; "Outer Inner"; "Inner"]
  ∧ Lang.textContent (Lang.toggle_click nested_lang) <$> [0; 1; 2; 3]%nat
    = ["Year: Bonjour"; "Bonjour"; "Dehors"; "Dedans"]
  ∧ Lang.querySelectorAll (Lang.toggle_click nested_lang) = [1; 2]%nat
  ∧ Lang.textContent (Lang.toggle_click (Lang.toggle_click nested_lang))
      <$> [0; 1; 2; 3]%nat
    = ["Year: Hello"; "Hello"; "Outer"; "Dedans"].
Proof. by vm_compute. Qed.

(** C4, as stated, fails: [greeting] is matched by [[data-en]] and reads
    ["Hi there"]; after two clicks it reads ["Hello"]. *)
Lemma toggle_twice_loses_text :
  ¬ (∀ (st : Lang.state) (id : nat),
       id ∈ Lang.querySelectorAll st →
       Lang.textContent (Lang.toggle_click (Lang.toggle_click st)) id
         = Lang.textContent st id).
Proof.
  intros Hclaim.
  specialize (Hclaim sample_lang 0%nat).
  assert (0%nat ∈ Lang.querySelectorAll sample_lang) as Hin
    by (apply (list_elem_of_lookup_2 _ 0%nat); by vm_compute).
  specialize (Hclaim Hin). vm_compute in Hclaim. discriminate Hclaim.
Qed.

(** C4, as amended, on the sample page: [about_heading] reads ["About"],
    its [data-en] value, before and after. *)
Lemma toggle_twice_text_witness :
  Lang.currentLang (Lang.toggle_click (Lang.toggle_click sample_lang))
    = Lang.currentLang sample_lang
  ∧ ∃ el', Lang.elements (Lang.toggle_click (Lang.toggle_click sample_lang)) !! 1%nat
             = Some el'
           ∧ Lang.dataset el' = Lang.dataset about_heading
           ∧ Lang.textContent (Lang.toggle_click (Lang.toggle_click sample_lang)) 1
             = default "" (Lang.dataset about_heading
                             !! Lang.key (Lang.currentLang sample_lang))
           ∧ (Lang.textContent (Lang.toggle_click (Lang.toggle_click sample_lang)) 1
                = Lang.textContent sample_lang 1
              ↔ Lang.textContent sample_lang 1
                = default "" (Lang.dataset about_heading
                                !! Lang.key (Lang.currentLang sample_lang))).
Proof.
  apply (toggle_twice_text sample_lang 1 about_heading); [by vm_compute|].
  apply (list_elem_of_lookup_2 _ 1%nat). by vm_compute.
Defined.

(** * More about the modal *)

Section ModalMore.

Import Modal.

Variable items : list work_item.

(** [openModal] throws exactly when [index] is not the index of an item that
    holds an image ([NaN], a negative or too large index, an item without
    [img]), and a throw leaves the modal as it found it. *)
Theorem openModal_throws_iff (index : jsnum) (st : modal) :
  ((∃ st', openModal items index st = Throw st')
   ↔ ¬ ∃ z it, index = Num z ∧ 0 ≤ z < N items
               ∧ items !! Z.to_nat z = Some it ∧ is_Some (img it))
  ∧ ∀ st', openModal items index st = Throw st' → st' = st.
Proof.
  split.
  - split.
    + intros [st' Hthrow] (z & it & -> & Hz & Hit & [src Hsrc]).
      unfold openModal, item_at in Hthrow.
      rewrite decide_True, Hit, Hsrc in Hthrow by lia. done.
    + intros Hbad. destruct index as [z|]; [|by exists st].
      unfold openModal.
      destruct (item_at items z) as [it|] eqn:Hit; [|by exists st].
      destruct (img it) as [src|] eqn:Hsrc; [|by exists st].
      exfalso. apply Hbad. exists z, it.
      pose proof (item_at_Some_range items z it Hit) as Hz.
      unfold item_at in Hit. rewrite decide_True in Hit by lia.
      split; [done|]. split; [lia|]. split; [done|]. by exists src.
  - intros st'.
    destruct (openModal_cases items index st) as [(z & s & _ & _ & ->) | ->];
      [done|by intros [= <-]].
Qed.

(** After [k] presses of prev, [open(i)] has become [open((i - k) mod N)]. *)
Lemma prev_times (k : nat) (i : Z) (st : modal) :
  all_have_image items → open_at items i = Some st →
  ∃ st', times k (showPrev items) st = Normal st'
         ∧ open_at items ((i - Z.of_nat k) `mod` N items) = Some st'.
Proof.
  intros Himg Hopen. pose proof (open_at_range _ _ _ Hopen) as Hi.
  induction k as [|k (stk & Hrun & Hstk)].
  - exists st. split; [done|].
    rewrite Z.sub_0_r. by rewrite Z.mod_small.
  - destruct (open_at_fields _ _ _ Hstk) as [Hidx _].
    assert (0 ≤ (i - Z.of_nat k) `mod` N items < N items) as Hk
      by (apply Z.mod_pos_bound; lia).
    assert (((i - Z.of_nat k) `mod` N items - 1 + N items) `mod` N items
            = (i - Z.of_nat (S k)) `mod` N items) as Hmod.
    { replace ((i - Z.of_nat k) `mod` N items - 1 + N items)
        with ((i - Z.of_nat k) `mod` N items + (N items - 1)) by lia.
      rewrite Zplus_mod_idemp_l.
      replace (i - Z.of_nat k + (N items - 1))
        with (i - Z.of_nat (S k) + 1 * N items) by lia.
      apply Z_mod_plus_full. }
    destruct (open_at_is_Some items ((i - Z.of_nat (S k)) `mod` N items) Himg)
      as [st' Hst']; [apply Z.mod_pos_bound; lia|].
    exists st'. split; [|done].
    unfold times in *. rewrite Nat.iter_succ, Hrun. simpl.
    apply showPrev_open_at.
    + unfold in_bounds. by rewrite Hidx.
    + by rewrite Hidx, Hmod.
Qed.

(** The mirror image of the prev-then-next round trip: from [open(i)], next
    followed by prev leads back to [open(i)], and so does prev fired [N]
    times in a row. *)
Theorem next_prev_cycle (i : Z) :
  all_have_image items → 0 ≤ i < N items →
  ∃ st n,
    open_at items i = Some st
    ∧ showNext items st = Normal n
    ∧ showPrev items n = Normal st
    ∧ times (length items) (showPrev items) st = Normal st.
Proof.
  intros Himg Hi.
  destruct (open_at_is_Some items i Himg Hi) as [st Hopen].
  destruct (open_at_is_Some items ((i + 1) `mod` N items) Himg)
    as [n Hn]; [apply Z.mod_pos_bound; lia|].
  exists st, n.
  destruct (open_at_fields _ _ _ Hopen) as [Hidx _].
  destruct (open_at_fields _ _ _ Hn) as [Hnidx _].
  split; [done|]. split; [|split].
  - apply showNext_open_at; [unfold in_bounds; by rewrite Hidx|]. by rewrite Hidx.
  - apply showPrev_open_at.
    + unfold in_bounds. rewrite Hnidx. apply Z.mod_pos_bound; lia.
    + rewrite Hnidx.
      replace ((i + 1) `mod` N items - 1 + N items)
        with ((i + 1) `mod` N items + (N items - 1)) by lia.
      rewrite Zplus_mod_idemp_l.
      replace (i + 1 + (N items - 1)) with (i + 1 * N items) by lia.
      rewrite Z_mod_plus_full. by rewrite Z.mod_small.
  - destruct (prev_times (length items) i st Himg Hopen) as (st' & Hrun & Hst').
    fold (N items) in Hst'.
    replace (i - N items) with (i + (-1) * N items) in Hst' by lia.
    rewrite Z_mod_plus_full in Hst'. rewrite Z.mod_small in Hst' by done.
    rewrite Hrun. f_equal. congruence.
Qed.

(** *** What an active modal shows *)

Lemma openModal_shows_current (index : jsnum) (st : modal) :
  shows_current items st → shows_current items (final (openModal items index st)).
Proof.
  intros Hst.
  destruct (openModal_cases items index st) as [(z & st' & _ & Hopen & ->) | ->];
    [|done].
  simpl. intros _. by destruct (open_at_fields _ _ _ Hopen) as [-> _].
Qed.

Lemma step_shows_current (e : event) (st : modal) :
  shows_current items st → shows_current items (step items e st).
Proof.
  intros Hst. unfold step.
  destruct e as [i| | | | | |key]; unfold handle, showPrev, showNext;
    try (by apply openModal_shows_current).
  - destruct (items !! i); [by apply openModal_shows_current|done].
  - done.
  - destruct (active st) eqn:Hactive.
    + rewrite onKeydown_active by done.
      repeat case_decide; try done; by apply openModal_shows_current.
    + unfold onKeydown. by rewrite Hactive.
Qed.

(** Started closed, the modal never shows one item under the index of
    another: after any sequence of events, an active modal is in the state
    [open(currentIndex)].  Spelled out: [currentIndex] is the index of a
    work item, and the modal's image source, title and metadata text are
    those of that item. *)
Theorem active_shows_current (es : list event) (src title meta : string) :
  let st := run items es (initial src title meta false) in
  active st = true →
  open_at items (currentIndex st) = Some st
  ∧ 0 ≤ currentIndex st < N items
  ∧ ∃ it isrc, items !! Z.to_nat (currentIndex st) = Some it ∧ img it = Some isrc
      ∧ st = {| currentIndex := currentIndex st;
              modalImg_src := isrc;
              modalTitle_text := default "" (dataset it !! "title");
              modalMeta_text :=
                default "undefined" (dataset it !! "medium")
                  +:+ " â€” "
                  +:+ default "undefined" (dataset it !! "year");
              active := true |}.
Proof.
  simpl.
  assert (∀ st, shows_current items st → shows_current items (run items es st)) as Hrun.
  { induction es as [|e es IH]; intros st Hst; [done|].
    simpl. apply IH. by apply step_shows_current. }
  intros Hactive.
  assert (open_at items (currentIndex (run items es (initial src title meta false)))
          = Some (run items es (initial src title meta false))) as Hopen.
  { apply Hrun; [by intros [=]|done]. }
  split; [done|]. by apply open_at_explicit.
Qed.

(** *** An item without image *)

(** The item after the current one holds no image: next, from the button,
    the overlay or the right arrow key, throws and leaves the modal on the
    current item, however often it is tried. *)
Theorem next_stuck_before_missing_image (i : Z) (st : modal) (it : work_item) (k : nat) :
  open_at items i = Some st →
  item_at items ((i + 1) `mod` N items) = Some it → img it = None →
  handle items ClickNext st = Throw st
  ∧ handle items ClickOverlayRight st = Throw st
  ∧ handle items (Keydown "ArrowRight") st = Throw st
  ∧ run items (replicate k ClickNext) st = st.
Proof.
  intros Hopen Hit Hnone.
  pose proof (open_at_range _ _ _ Hopen) as Hi.
  destruct (open_at_fields _ _ _ Hopen) as [Hidx Hactive].
  assert (showNext items st = Throw st) as Hnext.
  { unfold showNext. rewrite Hidx, js_rem_next by done.
    unfold openModal. by rewrite Hit, Hnone. }
  split; [done|]. split; [done|]. split.
  - simpl. rewrite onKeydown_active by done.
    rewrite decide_False, decide_True by done. done.
  - assert (step items ClickNext st = st) as Hstep
      by (unfold step; simpl; by rewrite Hnext).
    induction k as [|k IH]; [done|].
    simpl. by rewrite Hstep.
Qed.

(** *** No work items *)

(** With no work item on the page nothing opens the modal: after any
    sequence of events the index and the contents are as before, and the
    modal is active only if it was so from the start. *)
Theorem no_items_never_opens (es : list event) (st : modal) :
  items = [] →
  closeModal (run items es st) = closeModal st
  ∧ (active (run items es st) = true → active st = true).
Proof.
  intros ->.
  assert (∀ e s, step [] e s = s ∨ step [] e s = closeModal s) as Hstep.
  { intros e s. unfold step.
    destruct e as [i| | | | | |key]; simpl; try (by left); try (by right).
    unfold onKeydown. destruct (active s); [|by left]. simpl.
    destruct (decide (key = "ArrowLeft")) as [->|_]; [by left|]. simpl.
    destruct (decide (key = "ArrowRight")) as [->|_]; [by left|]. simpl.
    case_decide; [by right|by left]. }
  revert st. induction es as [|e es IH]; intros st; [done|].
  simpl. destruct (IH (step [] e st)) as [Hclose Hactive].
  rewrite Hclose.
  destruct (Hstep e st) as [Heq | Heq]; rewrite Heq in *.
  - by split.
  - split; [done|]. intros H. by apply Hactive in H.
Qed.

(** *** Keys on an open modal *)

(** On an active modal the left arrow does what the prev button does, the
    right arrow what the next button does, escape what the close control
    does, and every other key leaves the modal as it is. *)
Theorem keys_act_as_controls (key : string) (st : modal) :
  active st = true →
  handle items (Keydown "ArrowLeft") st = handle items ClickPrev st
  ∧ handle items (Keydown "ArrowRight") st = handle items ClickNext st
  ∧ handle items (Keydown "Escape") st = handle items ClickClose st
  ∧ (key ≠ "ArrowLeft" → key ≠ "ArrowRight" → key ≠ "Escape" →
     handle items (Keydown key) st = Normal st).
Proof.
  intros Hactive. simpl. rewrite !onKeydown_active by done.
  repeat split.
  intros H1 H2 H3. by rewrite !decide_False by done.
Qed.

End ModalMore.

(** * More about navigation *)

Section NavMore.

Import Nav.

Variable querySelector : string → lookup.

Lemma updateActiveLink_lookup (k j : nat) (p : page) (l : nav_link) :
  links p !! j = Some l →
  links (updateActiveLink k p) !! j =
    Some {| href := href l;
            fontWeight := if decide (j = k) then "700" else "500" |}.
Proof.
  intros Hj. unfold updateActiveLink, with_links. simpl.
  destruct (decide (j = k)) as [->|Hne].
  - by rewrite list_lookup_alter_eq, list_lookup_fmap, Hj.
  - by rewrite list_lookup_alter_ne, list_lookup_fmap, Hj by done.
Qed.

(** [updateActiveLink] leaves exactly one bold link: the [k]-th link gets
    weight 700 and every other link weight 500, whatever the weights were;
    no link is added, dropped or re-targeted, and nothing else on the page
    changes. *)
Theorem updateActiveLink_spec (k : nat) (p : page) :
  links (updateActiveLink k p) =
    imap (λ j l, {| href := href l;
                    fontWeight := if decide (j = k) then "700" else "500" |})
         (links p)
  ∧ scrollY (updateActiveLink k p) = scrollY p
  ∧ requests (updateActiveLink k p) = requests p
  ∧ navbar_offsetHeight (updateActiveLink k p) = navbar_offsetHeight p
  ∧ uncaught (updateActiveLink k p) = uncaught p.
Proof.
  split; [|done]. apply list_eq. intros j.
  rewrite list_lookup_imap.
  destruct (links p !! j) as [l|] eqn:Hj.
  - by rewrite (updateActiveLink_lookup k j p l).
  - simpl. unfold updateActiveLink, with_links. simpl.
    destruct (decide (j = k)) as [->|Hne].
    + by rewrite list_lookup_alter_eq, list_lookup_fmap, Hj.
    + by rewrite list_lookup_alter_ne, list_lookup_fmap, Hj by done.
Qed.

(** A click on a link whose target exists runs both listeners to their end:
    [scrollIntoView] on the target is asked for first, then [scrollTo] the
    target's [offsetTop] less the height of the navbar; the clicked link is
    the only bold one afterwards and no exception is raised. *)
Theorem click_link_found (k : nat) (link : nav_link) (target : element) (p : page) :
  links p !! k = Some link →
  querySelector (interpolate "null" (href link)) = Found target →
  click_link querySelector k p =
    {| scrollY := scrollY p;
       requests := ScrollTo (offsetTop target - navbar_offsetHeight p)
                     :: ScrollIntoView target :: requests p;
       links := alter (set_weight "700") k (set_weight "500" <$> links p);
       navbar_offsetHeight := navbar_offsetHeight p;
       uncaught := uncaught p |}
  ∧ ∀ j l, links p !! j = Some l →
      links (click_link querySelector k p) !! j =
        Some {| href := href l;
                fontWeight := if decide (j = k) then "700" else "500" |}.
Proof.
  intros Hk Hq.
  assert (click_link querySelector k p =
            updateActiveLink k
              (request (ScrollTo (offsetTop target - navbar_offsetHeight p))
                 (request (ScrollIntoView target) p))) as Hclick.
  { unfold click_link, dispatch. rewrite Hk. simpl.
    unfold scrollIntoView_listener, smoothScroll_listener.
    rewrite Hq. simpl. by rewrite ?Hq. }
  split; [by rewrite Hclick|].
  intros j l Hj. rewrite Hclick. by apply updateActiveLink_lookup.
Qed.

(** A click on a link whose [href] is no selector at all, such as a lone
    ["#"]: [querySelector] throws in both listeners, so two exceptions go
    uncaught, and nothing is scrolled or restyled. *)
Theorem click_link_invalid (k : nat) (link : nav_link) (p : page) :
  links p !! k = Some link →
  querySelector (interpolate "null" (href link)) = Invalid →
  click_link querySelector k p =
    {| scrollY := scrollY p; requests := requests p; links := links p;
       navbar_offsetHeight := navbar_offsetHeight p;
       uncaught := S (S (uncaught p)) |}.
Proof.
  intros Hk Hq. unfold click_link, dispatch. rewrite Hk. simpl.
  unfold scrollIntoView_listener, smoothScroll_listener.
  rewrite Hq. simpl. by rewrite ?Hq.
Qed.

(** The listeners of a click never move [scrollY] themselves and never
    touch an [href]. *)
Lemma click_link_cases (k : nat) (p : page) :
  scrollY (click_link querySelector k p) = scrollY p
  ∧ (links (click_link querySelector k p) = links p
     ∨ links (click_link querySelector k p)
       = alter (set_weight "700") k (set_weight "500" <$> links p)).
Proof.
  unfold click_link, dispatch.
  destruct (links p !! k) as [link|]; [|by split; [|left]]. simpl.
  unfold scrollIntoView_listener, smoothScroll_listener.
  destruct (querySelector (interpolate "null" (href link))) as [target| |] eqn:Hq;
    simpl; rewrite ?Hq; simpl; split; try done; try (by left); by right.
Qed.

End NavMore.

Section SpyMore.

Import Nav.

Variable sections : list element.
Variable navHeight : Z.

Lemma spy_weight_set_weight (cur : option string) (w : string) (link : nav_link) :
  spy_weight cur (set_weight w link) = spy_weight cur link.
Proof. by rewrite !spy_weight_spec. Qed.

Lemma spy_weight_restyled (cur : option string) (k : nat) (ls : list nav_link) :
  spy_weight cur <$> alter (set_weight "700") k (set_weight "500" <$> ls)
    = spy_weight cur <$> ls.
Proof.
  apply list_eq. intros j. rewrite !list_lookup_fmap.
  destruct (decide (j = k)) as [->|Hne].
  - rewrite list_lookup_alter_eq, list_lookup_fmap.
    destruct (ls !! k) as [l|]; [|done]. simpl.
    by rewrite !spy_weight_set_weight.
  - rewrite list_lookup_alter_ne, list_lookup_fmap by done.
    destruct (ls !! j) as [l|]; [|done]. simpl.
    by rewrite spy_weight_set_weight.
Qed.

(** The scroll spy overrides what a click has styled: the links after a
    click followed by a scroll event are those the scroll event alone would
    have left, whichever link was clicked and whatever its target. *)
Theorem scroll_overrides_click (querySelector : string → lookup) (k : nat) (p : page) :
  links (onScroll sections navHeight (click_link querySelector k p))
    = links (onScroll sections navHeight p).
Proof.
  destruct (click_link_cases querySelector k p) as [Hy [Hl | Hl]];
    unfold onScroll, with_links; simpl; rewrite Hy, Hl; [done|].
  apply spy_weight_restyled.
Qed.

(** When no band holds the scroll position (in particular on a page without
    sections), [currentSection] stays empty: the links whose [href] is a
    lone ["#"] become bold and all others get weight 500. *)
Theorem scroll_spy_no_match (p : page) :
  Forall (λ t, ¬ (offsetTop t - navHeight - 100 ≤ scrollY p
                  < offsetTop t - navHeight - 100 + offsetHeight t)) sections →
  links (onScroll sections navHeight p) =
    (λ link, {| href := href link;
                fontWeight := if decide (href link = Some "#")
                              then "700" else "500" |}) <$> links p.
Proof.
  intros Hnone. unfold onScroll, with_links. simpl.
  rewrite currentSection_none.
  - apply list_fmap_ext. intros _ link _. apply spy_weight_spec.
  - eapply Forall_impl; [exact Hnone|]. intros t Ht. simpl in Ht.
    destruct (in_band navHeight (scrollY p) t) eqn:Hband; [|done].
    by apply in_band_spec in Hband.
Qed.

(** A second scroll event at the same position changes nothing, and after
    a scroll event every link has weight 500 or 700. *)
Theorem onScroll_idempotent (p : page) :
  onScroll sections navHeight (onScroll sections navHeight p)
    = onScroll sections navHeight p
  ∧ Forall (λ link, fontWeight link = "500" ∨ fontWeight link = "700")
           (links (onScroll sections navHeight p)).
Proof.
  split.
  - unfold onScroll, with_links. simpl. f_equal.
    rewrite <- list_fmap_compose. apply list_fmap_ext. intros _ link _. simpl.
    rewrite !spy_weight_spec. simpl. done.
  - unfold onScroll, with_links. simpl.
    apply Forall_fmap, Forall_true. intros link. simpl.
    rewrite spy_weight_spec. simpl. case_decide; [by right|by left].
Qed.

End SpyMore.

(** * The navbar shadow *)

(** After a scroll event the navbar carries the shadow exactly when the
    page is scrolled by more than 50 pixels; at 50 and below, the style is
    the keyword [none].  Neither the earlier positions nor the style before
    matter. *)
Theorem navbar_shadow_iff (earlier : list Z) (scrollY : Z) (boxShadow : string) :
  (Header.scrolls (earlier ++ [scrollY]) boxShadow = "0 2px 10px rgba(0, 0, 0, 0.05)"
   ↔ 50 < scrollY)
  ∧ (Header.scrolls (earlier ++ [scrollY]) boxShadow = "none" ↔ scrollY ≤ 50).
Proof.
  unfold Header.scrolls. rewrite foldl_app. simpl. unfold Header.onScroll.
  case_decide; split; split; intros; try done; lia.
Qed.

(** * Contact links *)

Lemma hover_length (es : list Contact.event) (transforms : list string) :
  length (Contact.run es transforms) = length transforms.
Proof.
  revert transforms. induction es as [|e es IH]; intros ts; [done|].
  simpl. rewrite IH. destruct e; simpl; apply length_insert.
Qed.

(** Events on other links leave a link's transform alone. *)
Lemma hover_elsewhere (es : list Contact.event) (transforms : list string) (j : nat) :
  Forall (λ e, Contact.on_link e ≠ j) es →
  Contact.run es transforms !! j = transforms !! j.
Proof.
  revert transforms. induction es as [|e es IH]; intros ts Hes; [done|].
  apply Forall_cons in Hes as [He Hes]. simpl. rewrite IH by done.
  destruct e; simpl in *; by apply list_lookup_insert_ne.
Qed.

(** After any sequence of hover events, the transform of a link is the one
    of the last event on it: lifted by two pixels after a [mouseenter],
    [translateY(0)] after a [mouseleave], which is not the transform the
    link had before it was ever hovered. *)
Theorem hover_last_event_wins
    (before after : list Contact.event) (k : nat) (transforms : list string) :
  (k < length transforms)%nat →
  Forall (λ e, Contact.on_link e ≠ k) after →
  Contact.run (before ++ Contact.Mouseenter k :: after) transforms !! k
    = Some "translateY(-2px)"
  ∧ Contact.run (before ++ Contact.Mouseleave k :: after) transforms !! k
    = Some "translateY(0)".
Proof.
  intros Hk Hafter. unfold Contact.run. rewrite !foldl_app. simpl.
  fold (Contact.run before transforms).
  pose proof (hover_length before transforms) as Hlen.
  split.
  - fold (Contact.run after (<[k:="translateY(-2px)"]> (Contact.run before transforms))).
    rewrite hover_elsewhere by done.
    apply list_lookup_insert_eq. lia.
  - fold (Contact.run after (<[k:="translateY(0)"]> (Contact.run before transforms))).
    rewrite hover_elsewhere by done.
    apply list_lookup_insert_eq. lia.
Qed.

(** * Work item animations *)

(** Every work item ends with the same inline style: opacity 0 and one
    animation without any delay.  The index handed to the callback is not
    used, so no item is staggered against another; no item is added or
    dropped, and running the initializer again changes nothing. *)
Theorem work_items_animate_alike (workItems : list Stagger.style) :
  Stagger.initWorkItemAnimations workItems =
    replicate (length workItems)
      {| Stagger.opacity := "0";
         Stagger.animation := "fadeInUp 0.8s ease-out forwards" |}
  ∧ Stagger.initWorkItemAnimations (Stagger.initWorkItemAnimations workItems)
    = Stagger.initWorkItemAnimations workItems.
Proof.
  assert (∀ l, Stagger.initWorkItemAnimations l =
               replicate (length l)
                 {| Stagger.opacity := "0";
                    Stagger.animation := "fadeInUp 0.8s ease-out forwards" |}) as Hall.
  { intros l. unfold Stagger.initWorkItemAnimations.
    induction l as [|x l IH]; [done|].
    simpl. f_equal. exact IH. }
  split; [apply Hall|].
  rewrite (Hall (Stagger.initWorkItemAnimations workItems)), Hall.
  by rewrite length_replicate.
Qed.

(** * Scroll animations *)

Section RevealFacts.

Import Reveal.

Lemma state_eq (a b : state) :
  opacity a = opacity b → fade_in a = fade_in b → observed a = observed b → a = b.
Proof. destruct a, b. simpl. by intros -> -> ->. Qed.

Lemma on_entry_fade_in (st : state) (e : entry) (x : nat) :
  x ∈ fade_in (on_entry st e)
  ↔ x ∈ fade_in st ∨ (target e = x ∧ isIntersecting e = true).
Proof.
  unfold on_entry. destruct (isIntersecting e); simpl; [set_solver|naive_solver].
Qed.

Lemma on_entry_observed (st : state) (e : entry) (x : nat) :
  x ∈ observed (on_entry st e)
  ↔ x ∈ observed st ∧ ¬ (target e = x ∧ isIntersecting e = true).
Proof.
  unfold on_entry. destruct (isIntersecting e); simpl; [set_solver|naive_solver].
Qed.

Lemma on_entry_opacity (st : state) (e : entry) :
  opacity (on_entry st e) = opacity st.
Proof. unfold on_entry. by destruct (isIntersecting e). Qed.

Lemma reported_cons (e : entry) (entries : list entry) (x : nat) :
  reported (e :: entries) x
  ↔ (target e = x ∧ isIntersecting e = true) ∨ reported entries x.
Proof.
  unfold reported. split.
  - intros (e' & [->|Hin]%elem_of_cons & Ht & Hi); [by left|right; eauto].
  - intros [[Ht Hi]|(e' & Hin & Ht & Hi)].
    + exists e. split; [apply elem_of_cons; by left|done].
    + exists e'. split; [apply elem_of_cons; by right|done].
Qed.

Lemma reported_nil (x : nat) : ¬ reported [] x.
Proof. intros (e & Hin & _). by apply elem_of_nil in Hin. Qed.

Lemma observerCallback_fade_in (entries : list entry) (st : state) (x : nat) :
  x ∈ fade_in (observerCallback entries st) ↔ x ∈ fade_in st ∨ reported entries x.
Proof.
  revert st. induction entries as [|e entries IH]; intros st.
  - simpl. pose proof (reported_nil x). naive_solver.
  - simpl. fold (observerCallback entries (on_entry st e)).
    rewrite IH, on_entry_fade_in, reported_cons. naive_solver.
Qed.

Lemma observerCallback_observed (entries : list entry) (st : state) (x : nat) :
  x ∈ observed (observerCallback entries st) ↔ x ∈ observed st ∧ ¬ reported entries x.
Proof.
  revert st. induction entries as [|e entries IH]; intros st.
  - simpl. pose proof (reported_nil x). naive_solver.
  - simpl. fold (observerCallback entries (on_entry st e)).
    rewrite IH, on_entry_observed, reported_cons. naive_solver.
Qed.

Lemma observerCallback_opacity (entries : list entry) (st : state) :
  opacity (observerCallback entries st) = opacity st.
Proof.
  revert st. induction entries as [|e entries IH]; intros st; [done|].
  simpl. fold (observerCallback entries (on_entry st e)).
  by rewrite IH, on_entry_opacity.
Qed.

(** One run of the callback: an element carries [fade-in] afterwards exactly
    if it did before or an entry of the batch reports it as intersecting; it
    is watched afterwards exactly if it was before and no entry reports it;
    entries that do not intersect change nothing, and no inline opacity is
    touched. *)
Theorem observerCallback_spec (entries : list entry) (st : state) (x : nat) :
  (x ∈ fade_in (observerCallback entries st) ↔ x ∈ fade_in st ∨ reported entries x)
  ∧ (x ∈ observed (observerCallback entries st)
     ↔ x ∈ observed st ∧ ¬ reported entries x)
  ∧ opacity (observerCallback entries st) = opacity st.
Proof.
  split; [apply observerCallback_fade_in|].
  split; [apply observerCallback_observed|apply observerCallback_opacity].
Qed.

(** Entries delivered a second time, as when one element is queued twice,
    change nothing more: the class is not added twice and the element stays
    unwatched. *)
Theorem observerCallback_again (entries : list entry) (st : state) :
  observerCallback entries (observerCallback entries st) = observerCallback entries st.
Proof.
  apply state_eq.
  - by rewrite !observerCallback_opacity.
  - apply set_eq. intros x. rewrite !observerCallback_fade_in. naive_solver.
  - apply set_eq. intros x. rewrite !observerCallback_observed. naive_solver.
Qed.

Lemma init_observed (els : list nat) (st : state) (x : nat) :
  x ∈ observed (initScrollAnimations els st) ↔ x ∈ observed st ∨ x ∈ els.
Proof.
  revert st. induction els as [|el els IH]; intros st.
  - simpl. rewrite elem_of_nil. naive_solver.
  - simpl. fold (initScrollAnimations els (watch st el)).
    rewrite IH, elem_of_cons. simpl. set_solver.
Qed.

Lemma init_fade_in (els : list nat) (st : state) :
  fade_in (initScrollAnimations els st) = fade_in st.
Proof.
  revert st. induction els as [|el els IH]; intros st; [done|].
  simpl. fold (initScrollAnimations els (watch st el)). by rewrite IH.
Qed.

Lemma init_opacity_kept (els : list nat) (st : state) (x : nat) :
  opacity st !! x = Some "0" →
  opacity (initScrollAnimations els st) !! x = Some "0".
Proof.
  revert st. induction els as [|el els IH]; intros st Hx; [done|].
  simpl. fold (initScrollAnimations els (watch st el)). apply IH. simpl.
  destruct (decide (el = x)) as [->|Hne].
  - by rewrite lookup_insert_eq.
  - by rewrite lookup_insert_ne.
Qed.

Lemma init_opacity (els : list nat) (st : state) (x : nat) :
  x ∈ els → opacity (initScrollAnimations els st) !! x = Some "0".
Proof.
  revert st. induction els as [|el els IH]; intros st Hx.
  - by apply elem_of_nil in Hx.
  - simpl. fold (initScrollAnimations els (watch st el)).
    apply elem_of_cons in Hx as [->|Hx]; [|by apply IH].
    apply init_opacity_kept. simpl. by rewrite lookup_insert_eq.
Qed.

Lemma callbacks_fade_in (batches : list (list entry)) (st : state) (x : nat) :
  x ∈ fade_in (callbacks batches st)
  ↔ x ∈ fade_in st ∨ ∃ b, b ∈ batches ∧ reported b x.
Proof.
  revert st. induction batches as [|b batches IH]; intros st.
  - simpl. split; [by left|]. intros [?|(b & Hb%elem_of_nil & _)]; done.
  - simpl. fold (callbacks batches (observerCallback b st)).
    rewrite IH, observerCallback_fade_in. split.
    + intros [[?|?]|(b' & Hb' & Hr)]; [by left| |].
      * right. exists b. split; [apply elem_of_cons; by left|done].
      * right. exists b'. split; [apply elem_of_cons; by right|done].
    + intros [?|(b' & [->|Hb']%elem_of_cons & Hr)];
        [by left; left|by left; right|right; eauto].
Qed.

Lemma callbacks_observed (batches : list (list entry)) (st : state) (x : nat) :
  x ∈ observed (callbacks batches st)
  ↔ x ∈ observed st ∧ ¬ ∃ b, b ∈ batches ∧ reported b x.
Proof.
  revert st. induction batches as [|b batches IH]; intros st.
  - simpl. split; [|by intros [? _]]. intros Hx.
    split; [done|]. by intros (b & Hb%elem_of_nil & _).
  - simpl. fold (callbacks batches (observerCallback b st)).
    rewrite IH, observerCallback_observed. split.
    + intros [[Hx Hb] Hrest]. split; [done|].
      intros (b' & [->|Hb']%elem_of_cons & Hr); [done|]. apply Hrest. eauto.
    + intros [Hx Hnone]. split; [split; [done|]|].
      * intros Hr. apply Hnone. exists b. split; [apply elem_of_cons; by left|done].
      * intros (b' & Hb' & Hr). apply Hnone.
        exists b'. split; [apply elem_of_cons; by right|done].
Qed.

Lemma callbacks_opacity (batches : list (list entry)) (st : state) :
  opacity (callbacks batches st) = opacity st.
Proof.
  revert st. induction batches as [|b batches IH]; intros st; [done|].
  simpl. fold (callbacks batches (observerCallback b st)).
  by rewrite IH, observerCallback_opacity.
Qed.

(** From [initScrollAnimations] on, through any number of callbacks: an
    element the initializer selected is watched exactly as long as no batch
    has reported it as intersecting, it carries [fade-in] exactly if it did
    in the markup or some batch has reported it, and its inline opacity is
    still ["0"]: the callback reveals by class only and never resets the
    opacity it was given. *)
Theorem watched_until_reported
    (elementsToAnimate : list nat) (batches : list (list entry))
    (st0 : state) (x : nat) :
  x ∈ elementsToAnimate →
  let st := callbacks batches (initScrollAnimations elementsToAnimate st0) in
  (x ∈ observed st ↔ ¬ ∃ b, b ∈ batches ∧ reported b x)
  ∧ (x ∈ fade_in st ↔ x ∈ fade_in st0 ∨ ∃ b, b ∈ batches ∧ reported b x)
  ∧ opacity st !! x = Some "0".
Proof.
  intros Hx. simpl.
  rewrite callbacks_observed, callbacks_fade_in, callbacks_opacity.
  rewrite init_observed, init_fade_in.
  split; [naive_solver|]. split; [done|]. by apply init_opacity.
Qed.

End RevealFacts.

(** * More about the language toggle *)

Section LangMore.

Import Lang.

(** From the first click on, the page alternates between two states: an odd
    number of clicks leaves it as one click does, an even number as two
    clicks do. *)
Theorem toggle_period_two (n : nat) (st : state) :
  Nat.iter (2 * n + 1) toggle_click st = toggle_click st
  ∧ Nat.iter (2 * n + 2) toggle_click st = toggle_click (toggle_click st).
Proof.
  induction n as [|n [IHodd IHeven]]; [done|].
  replace (2 * S n + 1)%nat with (S (S (2 * n + 1))) by lia.
  replace (2 * S n + 2)%nat with (S (S (2 * n + 2))) by lia.
  rewrite !Nat.iter_succ, IHodd, IHeven.
  split; [apply toggle_thrice|]. by rewrite toggle_thrice.
Qed.

Lemma toggle_click_frame (st : state) (id : nat) (el : element) :
  elements st !! id = Some el →
  ∃ el', elements (toggle_click st) !! id = Some el'
         ∧ dataset el' = dataset el
         ∧ (tagged el = false → el' = el).
Proof.
  intros Hel. rewrite toggle_click_lookup, Hel.
  case_decide as Hid; [|by exists el].
  exists (retext (other (currentLang st)) el). split; [done|]. split; [done|].
  destruct (matched_tagged _ _ _ _ Hid) as (el0 & Hel0 & Ht).
  rewrite Hel in Hel0. injection Hel0 as <-. by rewrite Ht.
Qed.

(** Whatever the number of clicks, the toggle rewrites child nodes and
    nothing else: the top of the document is the same, no element is
    created or destroyed, every element keeps its data attributes, and an
    element that [[data-en]] does not match keeps its own child nodes (what
    it reads can still change with a matched element inside it). *)
Theorem toggle_frame (n : nat) (st : state) (id : nat) (el : element) :
  elements st !! id = Some el →
  body (Nat.iter n toggle_click st) = body st
  ∧ dom (elements (Nat.iter n toggle_click st)) = dom (elements st)
  ∧ ∃ el', elements (Nat.iter n toggle_click st) !! id = Some el'
           ∧ dataset el' = dataset el
           ∧ (tagged el = false → el' = el).
Proof.
  intros Hel. induction n as [|n (Hbody & Hdom & el1 & Hel1 & Hd1 & Hu1)].
  - split; [done|]. split; [done|]. by exists el.
  - rewrite Nat.iter_succ.
    split; [done|]. split; [by rewrite toggle_click_dom|].
    destruct (toggle_click_frame _ id el1 Hel1) as (el2 & Hel2 & Hd2 & Hu2).
    exists el2. split; [done|]. split; [congruence|].
    intros Ht. rewrite <- (Hu1 Ht). apply Hu2.
    unfold tagged in *. by rewrite Hd1.
Qed.

(** An element of the document with [data-en] but without [data-fr]: the
    first click, to French, empties its text.  The second click brings its
    [data-en] text back if it still finds the element in the document;
    otherwise the element stays empty. *)
Theorem missing_translation_empties (st : state) (id : nat) (el : element) (v : string) :
  currentLang st = en →
  id ∈ querySelectorAll st →
  elements st !! id = Some el →
  dataset el !! "en" = Some v → dataset el !! "fr" = None →
  textContent (toggle_click st) id = ""
  ∧ (id ∈ querySelectorAll (toggle_click st) →
     textContent (toggle_click (toggle_click st)) id = v)
  ∧ (id ∉ querySelectorAll (toggle_click st) →
     textContent (toggle_click (toggle_click st)) id = "").
Proof.
  intros Hen Hid Hel Hv Hnone.
  destruct (toggle_click_text st id Hid) as (el0 & Hel0 & _ & Hel1 & Htext).
  rewrite Hel in Hel0. injection Hel0 as <-.
  rewrite Hen in Hel1, Htext.
  change (other en) with fr in Hel1, Htext. change (key fr) with "fr" in Htext.
  split; [by rewrite Htext, Hnone|]. split.
  - intros Hid1.
    destruct (toggle_click_text _ id Hid1) as (el1 & Hel1' & _ & _ & Htext2).
    rewrite Hel1 in Hel1'. injection Hel1' as <-.
    rewrite toggle_click_lang, Hen in Htext2.
    change (key (other (other en))) with "en" in Htext2.
    change (dataset (retext fr el)) with (dataset el) in Htext2.
    by rewrite Htext2, Hv.
  - intros Hid1.
    assert (elements (toggle_click (toggle_click st)) !! id = Some (retext fr el)) as Hel2.
    { by rewrite toggle_click_lookup, decide_False. }
    rewrite (textContent_retext _ id fr el Hel2).
    change (key fr) with "fr". by rewrite Hnone.
Qed.

End LangMore.

(** * The further facts on the sample pages *)

(** Next then prev, and five times prev, from [open(2)] on the sample
    gallery. *)
Lemma next_prev_cycle_witness :
  ∃ st n,
    Modal.open_at gallery 2 = Some st
    ∧ Modal.showNext gallery st = Normal n
    ∧ Modal.showPrev gallery n = Normal st
    ∧ Modal.times (length gallery) (Modal.showPrev gallery) st = Normal st.
Proof.
  apply (next_prev_cycle gallery 2);
    [exact gallery_all_have_image | by vm_compute].
Defined.

(** Item 1 clicked, next, close, prev: the modal is active and shows
    item 1. *)
Lemma active_shows_current_witness :
  let st :=
    Modal.run gallery
      [Modal.ClickItem 1; Modal.ClickNext; Modal.ClickClose; Modal.ClickPrev]
      (Modal.initial "" "" "" false) in
  Modal.active st = true
  ∧ Modal.open_at gallery (Modal.currentIndex st) = Some st
  ∧ 0 ≤ Modal.currentIndex st < Modal.N gallery
  ∧ ∃ it isrc, gallery !! Z.to_nat (Modal.currentIndex st) = Some it
      ∧ Modal.img it = Some isrc
      ∧ st = {| Modal.currentIndex := Modal.currentIndex st;
              Modal.modalImg_src := isrc;
              Modal.modalTitle_text := default "" (Modal.dataset it !! "title");
              Modal.modalMeta_text :=
                default "undefined" (Modal.dataset it !! "medium")
                  +:+ " â€” "
                  +:+ default "undefined" (Modal.dataset it !! "year");
              Modal.active := true |}.
Proof.
  split; [reflexivity|].
  apply (active_shows_current gallery
           [Modal.ClickItem 1; Modal.ClickNext; Modal.ClickClose; Modal.ClickPrev]
           "" "" "").
  reflexivity.
Defined.

(** On the gallery whose middle item has no image, next from [open(0)]
    throws, three times over. *)
Lemma next_stuck_before_missing_image_witness :
  Modal.handle broken_gallery Modal.ClickNext dusk_open = Throw dusk_open
  ∧ Modal.handle broken_gallery Modal.ClickOverlayRight dusk_open = Throw dusk_open
  ∧ Modal.handle broken_gallery (Modal.Keydown "ArrowRight") dusk_open = Throw dusk_open
  ∧ Modal.run broken_gallery (replicate 3 Modal.ClickNext) dusk_open = dusk_open.
Proof.
  apply (next_stuck_before_missing_image broken_gallery 0 dusk_open
           {| Modal.img := None; Modal.dataset := {[ "title" := "Lost" ]} |} 3);
    reflexivity.
Defined.

(** A page without work items: prev, a right arrow and next leave the
    closed modal closed and untouched. *)
Lemma no_items_never_opens_witness :
  Modal.closeModal
    (Modal.run [] [Modal.ClickPrev; Modal.Keydown "ArrowRight"; Modal.ClickNext]
       blank_modal)
    = Modal.closeModal blank_modal
  ∧ (Modal.active
       (Modal.run [] [Modal.ClickPrev; Modal.Keydown "ArrowRight"; Modal.ClickNext]
          blank_modal) = true
     → Modal.active blank_modal = true).
Proof.
  apply (no_items_never_opens []
           [Modal.ClickPrev; Modal.Keydown "ArrowRight"; Modal.ClickNext] blank_modal).
  reflexivity.
Defined.

(** The keys on the sample gallery open on item 0; the key ["a"] does
    nothing. *)
Lemma keys_act_as_controls_witness :
  Modal.handle gallery (Modal.Keydown "ArrowLeft") dusk_open
    = Modal.handle gallery Modal.ClickPrev dusk_open
  ∧ Modal.handle gallery (Modal.Keydown "ArrowRight") dusk_open
    = Modal.handle gallery Modal.ClickNext dusk_open
  ∧ Modal.handle gallery (Modal.Keydown "Escape") dusk_open
    = Modal.handle gallery Modal.ClickClose dusk_open
  ∧ ("a" ≠ "ArrowLeft" → "a" ≠ "ArrowRight" → "a" ≠ "Escape" →
     Modal.handle gallery (Modal.Keydown "a") dusk_open = Normal dusk_open).
Proof. apply (keys_act_as_controls gallery "a" dusk_open). reflexivity. Defined.

(** A click on the second link of the sample page, whose target is the
    section [work] at offset 700 under a navbar of 70 pixels. *)
Lemma click_link_found_witness :
  Nav.click_link (Nav.by_id sample_sections) 1 sample_page =
    {| Nav.scrollY := 600;
       Nav.requests := [ Nav.ScrollTo (700 - 70);
                         Nav.ScrollIntoView (Nav.Element (Some "work") 700 900) ];
       Nav.links := alter (Nav.set_weight "700") 1%nat
                      (Nav.set_weight "500" <$> Nav.links sample_page);
       Nav.navbar_offsetHeight := 70;
       Nav.uncaught := 0 |}
  ∧ ∀ j l, Nav.links sample_page !! j = Some l →
      Nav.links (Nav.click_link (Nav.by_id sample_sections) 1 sample_page) !! j =
        Some {| Nav.href := Nav.href l;
                Nav.fontWeight := if decide (j = 1%nat) then "700" else "500" |}.
Proof.
  apply (click_link_found (Nav.by_id sample_sections) 1
           (Nav.NavLink (Some "#work") "")
           (Nav.Element (Some "work") 700 900) sample_page); reflexivity.
Defined.

(** A click on the link whose [href] is a lone ["#"]. *)
Lemma click_link_invalid_witness :
  Nav.click_link (Nav.by_id sample_sections) 0 bottom_page =
    {| Nav.scrollY := 5000; Nav.requests := []; Nav.links := Nav.links bottom_page;
       Nav.navbar_offsetHeight := 70; Nav.uncaught := 2 |}.
Proof.
  apply (click_link_invalid (Nav.by_id sample_sections) 0
           (Nav.NavLink (Some "#") "") bottom_page); reflexivity.
Defined.

(** Scrolled to 5000, below every band of the sample sections: the link to
    ["#"] turns bold and the link to ["#work"] loses its weight. *)
Lemma scroll_spy_no_match_witness :
  Nav.links (Nav.onScroll sample_sections 70 bottom_page) =
    (λ link, {| Nav.href := Nav.href link;
                Nav.fontWeight := if decide (Nav.href link = Some "#")
                                  then "700" else "500" |}) <$> Nav.links bottom_page.
Proof.
  apply (scroll_spy_no_match sample_sections 70 bottom_page).
  repeat constructor; simpl; lia.
Defined.

(** Three contact links; the second is entered, another is entered and
    left, the second is left, the first is entered. *)
Lemma hover_last_event_wins_witness :
  Contact.run
    ([Contact.Mouseleave 1; Contact.Mouseenter 2]
       ++ Contact.Mouseenter 1 :: [Contact.Mouseleave 2; Contact.Mouseenter 0])
    [""; ""; ""] !! 1%nat = Some "translateY(-2px)"
  ∧ Contact.run
      ([Contact.Mouseleave 1; Contact.Mouseenter 2]
         ++ Contact.Mouseleave 1 :: [Contact.Mouseleave 2; Contact.Mouseenter 0])
      [""; ""; ""] !! 1%nat = Some "translateY(0)".
Proof.
  apply (hover_last_event_wins
           [Contact.Mouseleave 1; Contact.Mouseenter 2]
           [Contact.Mouseleave 2; Contact.Mouseenter 0] 1 [""; ""; ""]).
  - simpl. lia.
  - repeat constructor; simpl; lia.
Defined.

(** Elements 3, 5 and 8 are selected; element 3 is reported in two batches,
    element 5 only as not intersecting: it is still watched, not revealed,
    and transparent. *)
Lemma watched_until_reported_witness :
  let st :=
    Reveal.callbacks
      [ [Reveal.Entry 3 true; Reveal.Entry 5 false]; [Reveal.Entry 3 true] ]
      (Reveal.initScrollAnimations [3; 5; 8]%nat unwatched) in
  (5%nat ∈ Reveal.observed st
   ↔ ¬ ∃ b, b ∈ [ [Reveal.Entry 3 true; Reveal.Entry 5 false]; [Reveal.Entry 3 true] ]
            ∧ Reveal.reported b 5)
  ∧ (5%nat ∈ Reveal.fade_in st
     ↔ 5%nat ∈ Reveal.fade_in unwatched
       ∨ ∃ b, b ∈ [ [Reveal.Entry 3 true; Reveal.Entry 5 false]; [Reveal.Entry 3 true] ]
              ∧ Reveal.reported b 5)
  ∧ Reveal.opacity st !! 5%nat = Some "0".
Proof.
  apply (watched_until_reported [3; 5; 8]%nat
           [ [Reveal.Entry 3 true; Reveal.Entry 5 false]; [Reveal.Entry 3 true] ]
           unwatched 5).
  apply (list_elem_of_lookup_2 _ 1%nat). reflexivity.
Defined.

(** Three clicks on the nested page: the untagged paragraph keeps its
    child nodes. *)
Lemma toggle_frame_witness :
  Lang.body (Nat.iter 3 Lang.toggle_click nested_lang) = Lang.body nested_lang
  ∧ dom (Lang.elements (Nat.iter 3 Lang.toggle_click nested_lang))
    = dom (Lang.elements nested_lang)
  ∧ ∃ el', Lang.elements (Nat.iter 3 Lang.toggle_click nested_lang) !! 0%nat = Some el'
           ∧ Lang.dataset el' = ∅
           ∧ (Lang.tagged
                {| Lang.dataset := ∅;
                   Lang.childNodes := [Lang.TextNode "Year: "; Lang.ElementRef 1] |} = false
              → el' = {| Lang.dataset := ∅;
                         Lang.childNodes := [Lang.TextNode "Year: "; Lang.ElementRef 1] |}).
Proof.
  apply (toggle_frame 3 nested_lang 0
           {| Lang.dataset := ∅;
              Lang.childNodes := [Lang.TextNode "Year: "; Lang.ElementRef 1] |}).
  by vm_compute.
Defined.

(** A page whose only tagged element has no French text. *)
Lemma missing_translation_empties_witness :
  Lang.textContent
    (Lang.toggle_click
       (Lang.initial "FR" {[ 0%nat := untranslated ]} [Lang.ElementRef 0])) 0 = ""
  ∧ (0%nat ∈ Lang.querySelectorAll
               (Lang.toggle_click
                  (Lang.initial "FR" {[ 0%nat := untranslated ]} [Lang.ElementRef 0])) →
     Lang.textContent
       (Lang.toggle_click
          (Lang.toggle_click
             (Lang.initial "FR" {[ 0%nat := untranslated ]} [Lang.ElementRef 0]))) 0
     = "Portfolio")
  ∧ (0%nat ∉ Lang.querySelectorAll
               (Lang.toggle_click
                  (Lang.initial "FR" {[ 0%nat := untranslated ]} [Lang.ElementRef 0])) →
     Lang.textContent
       (Lang.toggle_click
          (Lang.toggle_click
             (Lang.initial "FR" {[ 0%nat := untranslated ]} [Lang.ElementRef 0]))) 0
     = "").
Proof.
  apply (missing_translation_empties
           (Lang.initial "FR" {[ 0%nat := untranslated ]} [Lang.ElementRef 0])
           0 untranslated "Portfolio");
    try (by vm_compute).
  apply (list_elem_of_lookup_2 _ 0%nat). by vm_compute.
Defined.

(** A click on the third link of the sample page, which points at no
    element. *)
Lemma click_link_missing_witness :
  Nav.click_link (Nav.by_id sample_sections) 2 sample_page =
    {| Nav.scrollY := 600; Nav.requests := []; Nav.links := Nav.links sample_page;
       Nav.navbar_offsetHeight := 70; Nav.uncaught := 1 |}.
Proof.
  apply (click_link_missing (Nav.by_id sample_sections) 2
           (Nav.NavLink (Some "#press") "") sample_page); reflexivity.
Defined.
